(** * Cutelyst dispatcher: a shallow embedding and its properties

    The development follows [Cutelyst::Dispatcher] and [DispatcherPrivate]
    (dispatcher.cpp): the action registry, the namespace walk, forwarding by
    name, path resolution by backtracking, URI generation and the set-up of
    the registry from the controllers.

    Conventions.
    - A [QString] is a list of 8-bit characters; the null string of Qt is
      [None] in an [option QString] where the code tells null from empty.
    - A C++ [int] is a [Z].  Every index the dispatcher computes lies between
      [-2] and the length of a string, so no wrap-around can occur.
    - [QHash] is a [gmap]; [QHash::value] of an absent key is the default
      value (a null pointer, an empty list).
    - An [Action *] is an [option Action], the null pointer being [None].
    - [exit(1)] and undefined behaviour (a null dereference, [last()] or
      [takeLast()] of an empty list) are outcomes of their own. *)

From Stdlib Require Import ZArith Ascii String List Sorted Lia.
From stdpp Require Import base option list gmap strings.

Local Open Scope Z_scope.

Abbreviation QChar := ascii (only parsing).
Abbreviation QString := (list ascii) (only parsing).
Abbreviation QStringList := (list (list ascii)) (only parsing).

(** String literals of the source. *)
Definition qs (s : string) : QString := list_ascii_of_string s.

Definition slash : QChar := "/"%char.

(** ** The operations of QString (Qt 5) the dispatcher uses *)

Module Qt.

Definition size (s : QString) : Z := Z.of_nat (length s).

Definition isEmpty (s : QString) : bool :=
  match s with [] => true | _ :: _ => false end.

(** [QString::at(i)]: defined for [0 <= i < size()] only. *)
Definition at_ (s : QString) (i : Z) : option QChar :=
  if i <? 0 then None else s !! Z.to_nat i.

(** [QString::mid(position, n)], after [QContainerImplHelper::mid]. *)
Definition mid (s : QString) (position n : Z) : QString :=
  let len := size s in
  if len <? position then []
  else if position <? 0 then
    if (n <? 0) || (len <=? n + position) then s
    else if n + position <=? 0 then []
    else take (Z.to_nat (n + position)) s
  else
    let n' := if (n <? 0) || (len - position <? n) then len - position else n in
    take (Z.to_nat n') (drop (Z.to_nat position) s).

(** [QString::remove(pos, len)]. *)
Definition remove (s : QString) (pos len : Z) : QString :=
  let sz := size s in
  let pos := if pos <? 0 then pos + sz else pos in
  if (pos <? 0) || (sz <=? pos) then s
  else if sz - pos <=? len then take (Z.to_nat pos) s
  else if 0 <? len then take (Z.to_nat pos) s ++ drop (Z.to_nat (pos + len)) s
  else s.

(** [QString::startsWith(QChar)]. *)
Definition startsWith (s : QString) (c : QChar) : bool :=
  match s with
  | [] => false
  | x :: _ => bool_decide (x = c)
  end.

(** The forward scan of [findChar]: [i] is the index of the head of [s]. *)
Fixpoint scanForward (c : QChar) (s : QString) (i : Z) : Z :=
  match s with
  | [] => -1
  | x :: s' => if bool_decide (x = c) then i else scanForward c s' (i + 1)
  end.

(** [QString::indexOf(ch, from)]. *)
Definition indexOf (s : QString) (c : QChar) (from : Z) : Z :=
  let len := size s in
  let from := if from <? 0 then Z.max (from + len) 0 else from in
  if from <? len then scanForward c (drop (Z.to_nat from) s) from else -1.

(** The backward scan of [qt_last_index_of]: from index [n] down to 0. *)
Fixpoint scanBackward (c : QChar) (s : QString) (n : nat) : Z :=
  if bool_decide (s !! n = Some c) then Z.of_nat n
  else match n with
       | O => -1
       | S m => scanBackward c s m
       end.

(** [QString::lastIndexOf(ch, from)]; [from = -1] is the default. *)
Definition lastIndexOf (s : QString) (c : QChar) (from : Z) : Z :=
  let len := size s in
  let from := if from <? 0 then from + len else from in
  if (from <? 0) || (len <=? from) then -1
  else scanBackward c s (Z.to_nat from).

(** [QString::split(sep)] with the default [KeepEmptyParts]. *)
Fixpoint split (sep : QChar) (s : QString) : QStringList :=
  match s with
  | [] => [[]]
  | c :: s' =>
      if bool_decide (c = sep) then [] :: split sep s'
      else match split sep s' with
           | [] => [[c]]
           | h :: t => (c :: h) :: t
           end
  end.

(** [QStringList::join(sep)]. *)
Fixpoint join (sep : QChar) (l : QStringList) : QString :=
  match l with
  | [] => []
  | [s] => s
  | s :: l' => s ++ sep :: join sep l'
  end.

(** [QList::takeLast()]: defined for a non-empty list only. *)
Definition takeLast {A} (l : list A) : option (A * list A) :=
  match last l with
  | Some x => Some (x, removelast l)
  | None => None
  end.

End Qt.

(** ** Outcomes of code that may leave through [exit] or undefined behaviour *)

Inductive Outcome (A : Type) : Type :=
| Ret (x : A)
| Exit (code : Z)
| Undefined.
Arguments Ret {A} x.
Arguments Exit {A} code.
Arguments Undefined {A}.

Definition bindO {A B} (m : Outcome A) (f : A → Outcome B) : Outcome B :=
  match m with
  | Ret x => f x
  | Exit c => Exit c
  | Undefined => Undefined
  end.

Notation "x ←O m ; k" := (bindO m (fun x => k))
  (at level 100, m at next level, right associativity, only parsing).

(** ** Data model *)

(** The part of [Cutelyst::Action] the dispatcher reads.  [reverse] is an
    accessor of its own in the source; [controller] is the object name of the
    owning controller. *)
Record Action : Type := mkAction {
  ns : QString;
  name : QString;
  attributes : gset (list ascii);
  reverse : QString;
  controller : QString
}.

Abbreviation ActionList := (list Action) (only parsing).

(** [action->name()], for the functions that have a parameter [name]. *)
Definition actionName : Action → QString := name.

(** Modelled from the spec: the reverse key of an action is derived as
    namespace + "/" + name (class Action is not among the sources). *)
Definition reverse_wf (a : Action) : Prop :=
  reverse a = ns a ++ slash :: name a.

Record Controller : Type := mkController {
  objectName : QString;
  actions : ActionList
}.

Record Request : Type := mkRequest {
  path : QString;
  args : QStringList;
  match_ : QString
}.

(** The context of a request: the resolved action, the request, the stack of
    executing actions (the top is the last element) and the errors reported. *)
Record Context : Type := mkContext {
  action : option Action;
  req : Request;
  stack : list Action;
  errors : list (list ascii)
}.

(** Modelled from the spec: [Context::error(message)] reports one message to
    the request pipeline (class Context is not among the sources). *)
Definition error (ctx : Context) (msg : QString) : Context :=
  {| action := action ctx; req := req ctx; stack := stack ctx;
     errors := errors ctx ++ [msg] |}.

Inductive MatchType : Type := NoMatch | ExactMatch.

(** The interface of a dispatch type ([DispatchType]); [DT] is the state of
    one dispatch type.  [dt_uriForAction] answers [None] for a null string. *)
Class DispatchType (DT : Type) : Type := {
  dt_registerAction : DT → Action → DT * bool;
  dt_match : DT → Context → QString → QStringList → MatchType * Context;
  dt_uriForAction : DT → Action → QStringList → option QString;
  dt_inUse : DT → bool
}.

(** [DispatcherPrivate]. *)
Record DispatcherPrivate (DT : Type) : Type := mkDispatcher {
  actionHash : gmap (list ascii) Action;
  containerHash : gmap (list ascii) (list Action);
  rootActions : ActionList;
  constrollerHash : gmap (list ascii) Controller;
  dispatchers : list DT;
  showInternalActions : bool
}.
Arguments mkDispatcher {DT}.
Arguments actionHash {DT}.
Arguments containerHash {DT}.
Arguments rootActions {DT}.
Arguments constrollerHash {DT}.
Arguments dispatchers {DT}.
Arguments showInternalActions {DT}.

(** ** Lookups in the registry *)

(** [DispatcherPrivate::cleanNamespace]: one turn of the [for] loop, for the
    counter [i], on the variables [ret], [nsSize] and [lastWasSlash]. *)
Definition cleanNamespace_body (st : QString * Z * bool) (i : Z)
  : QString * Z * bool :=
  let '(ret, nsSize, lastWasSlash) := st in
  if i <? nsSize then
    match Qt.at_ ret i with
    | Some c =>
        if bool_decide (c = slash) then
          if lastWasSlash then (Qt.remove ret i 1, nsSize - 1, lastWasSlash)
          else (ret, nsSize, true)
        else (ret, nsSize, false)
    | None => st
    end
  else st.

(** The counter runs over [0 .. ns.size() - 1]; [nsSize] only shrinks, so a
    turn with [nsSize <= i] stands for the loop having ended. *)
Definition cleanNamespace (ns : QString) : QString :=
  let '(ret, _, _) :=
    fold_left cleanNamespace_body
              (map Z.of_nat (seq 0 (length ns)))
              (ns, Qt.size ns, true) in
  ret.

Section Dispatcher.

Context {DT : Type} `{DispatchType DT}.

(** [Dispatcher::getAction]. *)
Definition getAction (d : DispatcherPrivate DT) (name nameSpace : QString)
  : option Action :=
  if Qt.isEmpty name then None
  else
    let ns := cleanNamespace nameSpace in
    actionHash d !! (ns ++ slash :: name).

(** [Dispatcher::getActionByPath]. *)
Definition getActionByPath (d : DispatcherPrivate DT) (path : QString)
  : option Action :=
  let _path := if Qt.startsWith path slash then Qt.remove path 0 1 else path in
  actionHash d !! _path.

(** [containerHash.value(key)]. *)
Definition containerValue (d : DispatcherPrivate DT) (key : QString)
  : ActionList :=
  default [] (containerHash d !! key).

(** The [while] loop of [DispatcherPrivate::getContainers]. *)
Fixpoint getContainers_loop (fuel : nat) (d : DispatcherPrivate DT)
    (ns : QString) (ret : ActionList) (pos : Z) : ActionList :=
  match fuel with
  | O => ret
  | S fuel' =>
      if 0 <? pos then
        getContainers_loop fuel' d ns
          (ret ++ containerValue d (Qt.mid ns 0 pos))
          (Qt.lastIndexOf ns slash (pos - 1))
      else ret
  end.

(** [DispatcherPrivate::getContainers].  [pos] decreases at every turn, so
    [ns.size()] turns are enough (lemma [getContainers_loop_fuel]). *)
Definition getContainers (d : DispatcherPrivate DT) (ns : QString)
  : ActionList :=
  let ret :=
    if bool_decide (ns ≠ qs "/") then
      getContainers_loop (length ns) d ns [] (Qt.size ns)
    else [] in
  ret ++ rootActions d.

(** [Dispatcher::getActions]. *)
Definition getActions (d : DispatcherPrivate DT) (name nameSpace : QString)
  : ActionList :=
  if Qt.isEmpty name then []
  else
    let ns := cleanNamespace nameSpace in
    let containers := getContainers d ns in
    fold_left (fun ret action =>
                 if bool_decide (actionName action = name)
                 then action :: ret else ret)
              containers [].

(** [Dispatcher::uriForAction]; the null string is [None]. *)
Fixpoint uriForAction_loop (ds : list DT) (action : Action)
    (captures : QStringList) : option QString :=
  match ds with
  | [] => None
  | dispatch :: ds' =>
      match dt_uriForAction dispatch action captures with
      | Some uri => Some (if Qt.isEmpty uri then qs "/" else uri)
      | None => uriForAction_loop ds' action captures
      end
  end.

Definition uriForAction (d : DispatcherPrivate DT) (action : Action)
    (captures : QStringList) : option QString :=
  uriForAction_loop (dispatchers d) action captures.

(** ** Forwarding by name *)

(** [DispatcherPrivate::actionRel2Abs]; [stack().last()] of an empty stack
    is undefined. *)
Definition actionRel2Abs (ctx : Context) (path : QString) : Outcome QString :=
  ret ←O (if negb (Qt.startsWith path slash) then
            match last (stack ctx) with
            | Some top => Ret (ns top ++ slash :: path)
            | None => Undefined
            end
          else Ret path);
  Ret (if Qt.startsWith ret slash then Qt.remove ret 0 1 else ret).

(** The [do ... while] loop of [DispatcherPrivate::invokeAsPath], on the
    variables [path], [pos] and [lastPos]; [None] is the null pointer
    returned after the loop. *)
Fixpoint invokeAsPath_loop (fuel : nat) (d : DispatcherPrivate DT)
    (path : QString) (pos lastPos : Z) : option Action :=
  match fuel with
  | O => None
  | S fuel' =>
      let '(ret, path) :=
        if pos =? -1 then (getAction d path [], path)
        else
          let name := Qt.mid path (pos + 1) lastPos in
          let path := Qt.mid path 0 pos in
          (getAction d name path, path) in
      match ret with
      | Some a => Some a
      | None =>
          let lastPos := pos in
          let pos := Qt.indexOf path slash (pos - 1) in
          if negb (pos =? -1) then invokeAsPath_loop fuel' d path pos lastPos
          else None
      end
  end.

(** [DispatcherPrivate::invokeAsPath].  The path gets shorter at every
    turn but the first, so [path.size() + 1] turns are enough (lemma
    [invokeAsPath_loop_fuel]). *)
Definition invokeAsPath (d : DispatcherPrivate DT) (ctx : Context)
    (relativePath : QString) (args : QStringList) : Outcome (option Action) :=
  path ←O actionRel2Abs ctx relativePath;
  let pos := Qt.lastIndexOf path slash (-1) in
  let lastPos := Qt.size path in
  Ret (invokeAsPath_loop (S (length path)) d path pos lastPos).

(** [DispatcherPrivate::command2Action]. *)
Definition command2Action (d : DispatcherPrivate DT) (ctx : Context)
    (command : QString) : Outcome (option Action) :=
  match actionHash d !! command with
  | Some a => Ret (Some a)
  | None => invokeAsPath d ctx command (args (req ctx))
  end.

End Dispatcher.

(** ** Collaborators outside the dispatcher

    [fromPercentEncoding s] stands for
    [QUrl::fromPercentEncoding(s.toLatin1())], [action_dispatch] for
    [Action::dispatch(ctx)], and [setupFinished] for the notification
    [ControllerPrivate::setupFinished()], which may reach the dispatcher
    the controller belongs to. *)
Class Collaborators (DT : Type) : Type := {
  fromPercentEncoding : QString → QString;
  action_dispatch : Action → Context → bool * Context;
  setupFinished : Controller → DispatcherPrivate DT → DispatcherPrivate DT
}.

Definition dquote : QChar := "034"%char.

(** The five names of the life cycle of an action. *)
Definition isInternalName (n : QString) : bool :=
  negb (bool_decide (n ≠ qs "_DISPATCH") &&
        bool_decide (n ≠ qs "_BEGIN") &&
        bool_decide (n ≠ qs "_AUTO") &&
        bool_decide (n ≠ qs "_ACTION") &&
        bool_decide (n ≠ qs "_END")).

(** What [setupActions] writes to the log: the debug line for an action
    that was not registered and the critical line that precedes [exit(1)],
    which names the controller that registered the key before. *)
Inductive LogEntry : Type :=
| NotRegistered (a : Action)
| AlreadyRegistered (a : Action) (by_controller : QString).

Section Updates.

Context {DT : Type}.

Definition with_actionHash (d : DispatcherPrivate DT) (h : gmap (list ascii) Action)
  : DispatcherPrivate DT :=
  mkDispatcher h (containerHash d) (rootActions d) (constrollerHash d)
               (dispatchers d) (showInternalActions d).

Definition with_containerHash (d : DispatcherPrivate DT) (h : gmap (list ascii) (list Action))
  : DispatcherPrivate DT :=
  mkDispatcher (actionHash d) h (rootActions d) (constrollerHash d)
               (dispatchers d) (showInternalActions d).

Definition with_rootActions (d : DispatcherPrivate DT) (l : ActionList)
  : DispatcherPrivate DT :=
  mkDispatcher (actionHash d) (containerHash d) l (constrollerHash d)
               (dispatchers d) (showInternalActions d).

Definition with_constrollerHash (d : DispatcherPrivate DT) (h : gmap (list ascii) Controller)
  : DispatcherPrivate DT :=
  mkDispatcher (actionHash d) (containerHash d) (rootActions d) h
               (dispatchers d) (showInternalActions d).

Definition with_dispatchers (d : DispatcherPrivate DT) (ds : list DT)
  : DispatcherPrivate DT :=
  mkDispatcher (actionHash d) (containerHash d) (rootActions d)
               (constrollerHash d) ds (showInternalActions d).

End Updates.

Section Requests.

Context {DT : Type} `{DispatchType DT} `{Collaborators DT}.

(** ** Path resolution *)

(** The inner [Q_FOREACH] of [prepareAction]: the candidate is offered to
    the dispatch types in order; [true] stands for [goto out]. *)
Fixpoint offer (ds : list DT) (ctx : Context) (actionPath : QString)
    (args : QStringList) : bool * Context :=
  match ds with
  | [] => (false, ctx)
  | type :: ds' =>
      match dt_match type ctx actionPath args with
      | (ExactMatch, ctx') => (true, ctx')
      | (NoMatch, ctx') => offer ds' ctx' actionPath args
      end
  end.

(** The [Q_FOREVER] loop of [prepareAction], on the variables [pathParts],
    [args] and [pos]. *)
Fixpoint prepareAction_loop (fuel : nat) (ds : list DT) (path : QString)
    (pathParts args : QStringList) (pos : Z) (ctx : Context)
  : Outcome Context :=
  match fuel with
  | O => Ret ctx
  | S fuel' =>
      let actionPath := Qt.mid path 0 pos in
      match offer ds ctx actionPath args with
      | (true, ctx') => Ret ctx'
      | (false, ctx') =>
          if pos <=? 0 then Ret ctx'
          else
            let pos := Qt.lastIndexOf path slash (pos - 1) in
            let pos := if pos =? -1 then 0 else pos in
            match Qt.takeLast pathParts with
            | Some (part, pathParts') =>
                prepareAction_loop fuel' ds path pathParts'
                  (fromPercentEncoding part :: args) pos ctx'
            | None => Undefined
            end
      end
  end.

(** [Dispatcher::prepareAction].  [pos] decreases at every turn and the
    loop ends at [pos <= 0], so [path.size() + 1] turns are enough
    (theorem [prepareAction_refines]). *)
Definition prepareAction (d : DispatcherPrivate DT) (ctx : Context)
  : Outcome Context :=
  let path := path (req ctx) in
  let pathParts := [] :: Qt.split slash path in
  prepareAction_loop (S (length path)) (dispatchers d) path pathParts []
                     (Qt.size path) ctx.

(** ** Dispatch and forward *)

(** [Dispatcher::forward(Context *, const QString &)]. *)
Definition forward (d : DispatcherPrivate DT) (ctx : Context)
    (opname : QString) : Outcome (bool * Context) :=
  action ←O command2Action d ctx opname;
  match action with
  | Some a => Ret (action_dispatch a ctx)
  | None => Ret (false, ctx)
  end.

(** [Dispatcher::dispatch]. *)
Definition dispatch (d : DispatcherPrivate DT) (ctx : Context)
  : Outcome (bool * Context) :=
  match action ctx with
  | Some a => forward d ctx (slash :: ns a ++ qs "/_DISPATCH")
  | None =>
      let path := path (req ctx) in
      if Qt.isEmpty path then
        Ret (false, error ctx (qs "No default action defined"))
      else
        Ret (false, error ctx (qs "Unknown resource " ++ dquote :: path
                                  ++ dquote :: qs "."))
  end.

(** ** Set-up *)

(** The [Q_FOREACH] over the dispatch types in [setupActions]: every type
    is offered the action. *)
Fixpoint registerWithAll (ds : list DT) (action : Action) : list DT * bool :=
  match ds with
  | [] => ([], false)
  | dispatch :: ds' =>
      let '(dispatch', r) := dt_registerAction dispatch action in
      let '(ds'', registered) := registerWithAll ds' action in
      (dispatch' :: ds'', r || registered)
  end.

(** The body of the [Q_FOREACH] over the actions of a controller.  The
    result is what is logged and the new dispatcher with the flag
    [instanceUsed], unless the process exits.  The local list
    [registeredActions] is written and never read; it is left out.  The
    critical line dereferences [actionHash.value(action->reverse())], a null
    pointer when the key is absent. *)
Definition registerOne (d : DispatcherPrivate DT) (instanceUsed : bool)
    (action : Action)
  : list LogEntry * Outcome (DispatcherPrivate DT * bool) :=
  let '(ds, registered) :=
    if negb (bool_decide (is_Some (actionHash d !! reverse action))) then
      if negb (bool_decide (qs "Private" ∈ attributes action)) then
        registerWithAll (dispatchers d) action
      else (dispatchers d, true)
    else (dispatchers d, false) in
  let d := with_dispatchers d ds in
  if registered then
    let d := with_actionHash d
               (<[ns action ++ slash :: name action := action]>
                  (actionHash d)) in
    let d := with_containerHash d
               (<[ns action := containerValue d (ns action) ++ [action]]>
                  (containerHash d)) in
    ([], Ret (d, true))
  else if negb (isInternalName (name action)) then
    ([NotRegistered action], Ret (d, instanceUsed))
  else if showInternalActions d then
    match actionHash d !! reverse action with
    | Some other =>
        ([AlreadyRegistered action (controller other)], Exit 1)
    | None => ([], Undefined)
    end
  else ([], Ret (d, instanceUsed)).

Fixpoint registerActions (acts : ActionList) (d : DispatcherPrivate DT)
    (instanceUsed : bool)
  : list LogEntry * Outcome (DispatcherPrivate DT * bool) :=
  match acts with
  | [] => ([], Ret (d, instanceUsed))
  | action :: acts' =>
      match registerOne d instanceUsed action with
      | (l, Ret (d', used)) =>
          let '(l', r) := registerActions acts' d' used in (l ++ l', r)
      | (l, Exit c) => (l, Exit c)
      | (l, Undefined) => (l, Undefined)
      end
  end.

(** The body of the outer [Q_FOREACH] over the controllers. *)
Definition registerController (d : DispatcherPrivate DT) (c : Controller)
  : list LogEntry * Outcome (DispatcherPrivate DT) :=
  match registerActions (actions c) d false with
  | (l, Ret (d', instanceUsed)) =>
      (l, Ret (if instanceUsed then
                 with_constrollerHash d'
                   (<[objectName c := c]> (constrollerHash d'))
               else d'))
  | (l, Exit c) => (l, Exit c)
  | (l, Undefined) => (l, Undefined)
  end.

Fixpoint registerControllers (cs : list Controller)
    (d : DispatcherPrivate DT)
  : list LogEntry * Outcome (DispatcherPrivate DT) :=
  match cs with
  | [] => ([], Ret d)
  | c :: cs' =>
      match registerController d c with
      | (l, Ret d') =>
          let '(l', r) := registerControllers cs' d' in (l ++ l', r)
      | (l, o) => (l, o)
      end
  end.

(** The root actions are cached from the container of the root
    namespace. *)
Definition cacheRootActions (d : DispatcherPrivate DT) : DispatcherPrivate DT :=
  with_rootActions d (containerValue d (qs EmptyString)).

Definition notifyControllers (cs : list Controller)
    (d : DispatcherPrivate DT) : DispatcherPrivate DT :=
  fold_left (fun d c => setupFinished c d) cs d.

(** The [while] loop that unregisters the dispatch types not in use. *)
Definition dropUnused (d : DispatcherPrivate DT) : DispatcherPrivate DT :=
  with_dispatchers d (filter (fun t => dt_inUse t = true) (dispatchers d)).

(** [Dispatcher::setupActions]; [printActions] only writes to the debug
    log and is left out. *)
Definition setupActions (d : DispatcherPrivate DT) (controllers : list Controller)
  : list LogEntry * Outcome (DispatcherPrivate DT) :=
  match registerControllers controllers d with
  | (l, Ret d1) =>
      (l, Ret (dropUnused (notifyControllers controllers (cacheRootActions d1))))
  | (l, o) => (l, o)
  end.

End Requests.

(** ** The path resolution of the specification

    The candidate is the join of the remaining path segments.  It is offered
    to the dispatch types; without a match, and unless the candidate is
    empty, its last segment moves (decoded) to the front of the arguments
    and the shorter candidate is tried.  [rsegs] holds the remaining
    segments, the last one first. *)
Section ResolutionSpec.

Context {DT : Type} `{DispatchType DT} `{Collaborators DT}.

Fixpoint resolve_spec (ds : list DT) (rsegs : QStringList)
    (args : QStringList) (ctx : Context) : Context :=
  let candidate := Qt.join slash (rev rsegs) in
  match offer ds ctx candidate args with
  | (true, ctx') => ctx'
  | (false, ctx') =>
      match rsegs with
      | [] => ctx'
      | seg :: rsegs' =>
          if Qt.isEmpty candidate then ctx'
          else resolve_spec ds rsegs' (fromPercentEncoding seg :: args) ctx'
      end
  end.

Definition prepareAction_spec (d : DispatcherPrivate DT) (ctx : Context)
  : Context :=
  resolve_spec (dispatchers d) (rev (Qt.split slash (path (req ctx)))) [] ctx.

(** The first non-null answer of the dispatch types, in their order. *)
Definition uriForAction_spec (d : DispatcherPrivate DT) (action : Action)
    (captures : QStringList) : option QString :=
  match omap (fun t => dt_uriForAction t action captures) (dispatchers d) with
  | [] => None
  | uri :: _ => Some (if Qt.isEmpty uri then qs "/" else uri)
  end.

End ResolutionSpec.

(** ** The namespaces visited by [getContainers]

    The keys given to [containerHash.value] by the loop of [getContainers],
    in the order of the visits. *)
Fixpoint nsWalk_loop (fuel : nat) (ns : QString) (pos : Z) : QStringList :=
  match fuel with
  | O => []
  | S fuel' =>
      if 0 <? pos then
        Qt.mid ns 0 pos :: nsWalk_loop fuel' ns (Qt.lastIndexOf ns slash (pos - 1))
      else []
  end.

Definition nsWalk (ns : QString) : QStringList :=
  if bool_decide (ns ≠ qs "/") then nsWalk_loop (length ns) ns (Qt.size ns)
  else [].

(** ** A literal-path dispatch type and collaborators for the examples *)

#[global] Instance Action_eq_dec : EqDecision Action.
Proof. solve_decision. Defined.

(** Modelled from the spec: a literal-path dispatch type (DispatchTypePath is
    not among the sources), an exact mapping from paths to actions.  A path
    is kept without its leading slash, so the root path is the empty string;
    a candidate is looked up with a single leading slash stripped; the URI
    of an action is the path it is kept under. *)
Record PathType : Type := mkPathType {
  paths : gmap (list ascii) Action
}.

Definition literalPath (a : Action) : QString :=
  if Qt.isEmpty (ns a) then name a else ns a ++ slash :: name a.

(** What a dispatch type does to the context on [ExactMatch]: the resolved
    action, the final arguments and the matched candidate are set. *)
Definition resolved (ctx : Context) (a : Action) (candidate : QString)
    (arguments : QStringList) : Context :=
  {| action := Some a;
     req := {| path := path (req ctx); args := arguments; match_ := candidate |};
     stack := stack ctx;
     errors := errors ctx |}.

#[global] Instance PathType_DispatchType : DispatchType PathType := {|
  dt_registerAction t a :=
    (mkPathType (<[literalPath a := a]> (paths t)), true);
  dt_match t ctx candidate arguments :=
    let key := if Qt.startsWith candidate slash then Qt.remove candidate 0 1
               else candidate in
    match paths t !! key with
    | Some a => (ExactMatch, resolved ctx a candidate arguments)
    | None => (NoMatch, ctx)
    end;
  dt_uriForAction t a captures :=
    match paths t !! literalPath a with
    | Some b => if bool_decide (a = b) then Some (literalPath a) else None
    | None => None
    end;
  dt_inUse t := bool_decide (paths t ≠ ∅)
|}.

(** The value of a hexadecimal digit in [QByteArray::fromPercentEncoding];
    another character keeps its code. *)
Definition hexValue (c : QChar) : N :=
  let n := N_of_ascii c in
  (if (48 <=? n) && (n <=? 57) then n - 48
   else if (97 <=? n) && (n <=? 102) then n - 97 + 10
   else if (65 <=? n) && (n <=? 70) then n - 65 + 10
   else n)%N.

(** Percent decoding of strings whose decoded bytes are 7-bit characters. *)
Fixpoint percentDecode (s : QString) : QString :=
  match s with
  | [] => []
  | c :: s' =>
      match s' with
      | a :: b :: s'' =>
          if bool_decide (c = "%"%char) then
            ascii_of_N (N.lor (N.shiftl (hexValue a) 4) (hexValue b) mod 256)%N
              :: percentDecode s''
          else c :: percentDecode s'
      | _ => c :: percentDecode s'
      end
  end.

(** Collaborators whose controllers leave the dispatcher alone. *)
Definition quietCollaborators (DT : Type) : Collaborators DT := {|
  fromPercentEncoding := percentDecode;
  action_dispatch a ctx := (true, ctx);
  setupFinished c d := d
|}.

(** Collaborators whose controllers add their actions of the root namespace
    to the root container when they are notified. *)
Definition busyCollaborators (DT : Type) : Collaborators DT := {|
  fromPercentEncoding := percentDecode;
  action_dispatch a ctx := (true, ctx);
  setupFinished c d :=
    with_containerHash d
      (<[qs EmptyString := default [] (containerHash d !! qs EmptyString) ++ actions c]>
         (containerHash d))
|}.

(** ** Sample actions, registries and requests *)

Definition publicAction (n nm : string) : Action :=
  {| ns := qs n; name := qs nm; attributes := ∅;
     reverse := qs n ++ slash :: qs nm; controller := qs "Root" |}.

Definition privateAction (n nm ctl : string) : Action :=
  {| ns := qs n; name := qs nm; attributes := {[ qs "Private" ]};
     reverse := qs n ++ slash :: qs nm; controller := qs ctl |}.

(** A registry that knows [sibling] in the namespace [a] and in the root
    namespace, but not in [a/b]. *)
Definition siblingRegistry : DispatcherPrivate PathType :=
  mkDispatcher
    (<[qs "a/sibling" := publicAction "a" "sibling"]>
       (<[qs "/sibling" := publicAction EmptyString "sibling"]> ∅))
    ∅ [] ∅ [] false.

(** A registry that knows [sibling] in the namespace [a/b]. *)
Definition nestedRegistry : DispatcherPrivate PathType :=
  mkDispatcher
    (<[qs "a/b/sibling" := publicAction "a/b" "sibling"]> ∅)
    ∅ [] ∅ [] false.

Definition requestFor (p : string) : Request :=
  {| path := qs p; args := []; match_ := [] |}.

(** A context in which the action [a/b/current] is executing. *)
Definition contextInAB : Context :=
  {| action := None; req := requestFor EmptyString;
     stack := [publicAction "a/b" "current"]; errors := [] |}.

Definition freshContext (p : string) : Context :=
  {| action := None; req := requestFor p; stack := []; errors := [] |}.

(** [anc] is an ancestor of the namespace [k]. *)
Definition ancestorOf (anc k : list ascii) : Prop :=
  ∃ rest, k = anc ++ slash :: rest.

(** Containers with an action [show] in [a/b], in [a] and in the root
    namespace. *)
Definition showRegistry : DispatcherPrivate PathType :=
  mkDispatcher ∅
    (<[qs "a/b" := [publicAction "a/b" "show"; publicAction "a/b" "edit"]]>
       (<[qs "a" := [publicAction "a" "show"]]> ∅))
    [publicAction EmptyString "show"; publicAction EmptyString "index"] ∅ [] false.

(** A dispatcher whose first dispatch type is empty and whose second one
    holds the root action and the action [a/b]. *)
Definition rootAction : Action := publicAction EmptyString EmptyString.

Definition emptyPaths : PathType := mkPathType ∅.

Definition literalPaths : PathType :=
  mkPathType (<[qs "a/b" := publicAction "a" "b"]>
                (<[qs EmptyString := rootAction]> ∅)).

Definition literalDispatcher : DispatcherPrivate PathType :=
  mkDispatcher ∅ ∅ [] ∅ [emptyPaths; literalPaths] false.

(** ** Notions for the set-up *)

(** The number of critical lines in a log, that is, of the times the fatal
    path was taken. *)
Fixpoint criticals (l : list LogEntry) : nat :=
  match l with
  | [] => O
  | NotRegistered _ :: l' => criticals l'
  | AlreadyRegistered _ _ :: l' => S (criticals l')
  end.

Section SetupNotions.

Context {DT : Type} `{DispatchType DT}.

(** A dispatch type is steady when an action it declines leaves it as it
    was and when what it claims does not depend on what it was offered
    before. *)
Definition steady : Prop :=
  (∀ (t : DT) a, snd (dt_registerAction t a) = false →
                 fst (dt_registerAction t a) = t)
  ∧ (∀ (t : DT) a b,
       snd (dt_registerAction (fst (dt_registerAction t a)) b)
       = snd (dt_registerAction t b)).

(** Every dispatch type of the list declines the action. *)
Definition declinedByAll (ds : list DT) (a : Action) : Prop :=
  Forall (fun t => dt_registerAction t a = (t, false)) ds.

(** The action is settled: its reverse key is in the registry, or it is
    not private and no dispatch type claims it. *)
Definition settled (d : DispatcherPrivate DT) (a : Action) : Prop :=
  is_Some (actionHash d !! reverse a)
  ∨ ((qs "Private" ∉ attributes a) ∧ declinedByAll (dispatchers d) a).

(** The action gets registered: it is private or a dispatch type claims
    it. *)
Definition claimed (d : DispatcherPrivate DT) (a : Action) : Prop :=
  qs "Private" ∈ attributes a ∨ snd (registerWithAll (dispatchers d) a) = true.

End SetupNotions.

(** The state in an outcome that returns, [d] otherwise. *)
Definition stateOf {A} (o : Outcome A) (d : A) : A :=
  match o with
  | Ret x => x
  | _ => d
  end.

(** Set-ups for the examples: no dispatch types, diagnostics on or off. *)
Definition bareDispatcher (diagnostics : bool) : DispatcherPrivate PathType :=
  mkDispatcher ∅ ∅ [] ∅ [] diagnostics.

Definition controllerOf (ctl : string) (acts : list Action) : Controller :=
  {| objectName := qs ctl; actions := acts |}.

(** Two controllers that declare the same private action [a/foo]. *)
Definition fooFirst : Controller :=
  controllerOf "First" [privateAction "a" "foo" "First"].
Definition fooSecond : Controller :=
  controllerOf "Second" [privateAction "a" "foo" "Second"].

(** Two controllers that declare the same private action [a/_BEGIN]. *)
Definition beginFirst : Controller :=
  controllerOf "First" [privateAction "a" "_BEGIN" "First"].
Definition beginSecond : Controller :=
  controllerOf "Second" [privateAction "a" "_BEGIN" "Second"].

(** A controller of the root namespace with a public, an unroutable and a
    private action; the dispatcher it is registered in has the two literal
    dispatch types. *)
Definition rootController : Controller :=
  controllerOf "Root"
    [publicAction EmptyString "index"; privateAction EmptyString "_END" "Root";
     publicAction "a" "show"].

Definition startDispatcher : DispatcherPrivate PathType :=
  mkDispatcher ∅ ∅ [] ∅ [emptyPaths; emptyPaths] false.

(** ** The root candidate of the path resolution *)

Section RootCandidate.

Context {DT : Type} `{Collaborators DT}.



End RootCandidate.



(** ** Further notions for the dispatcher *)

(** The loop of [cleanNamespace] read as one pass over the characters that
    remain to be examined: a slash that follows a slash is removed, and the
    character that takes its place is kept without being examined, because
    the counter moves on. *)
Fixpoint cleanRest (lastWasSlash : bool) (rest : QString) : QString :=
  match rest with
  | [] => []
  | c :: rest' =>
      if bool_decide (c = slash) then
        if lastWasSlash then
          match rest' with
          | [] => []
          | kept :: rest'' => kept :: cleanRest true rest''
          end
        else c :: cleanRest true rest'
      else c :: cleanRest false rest'
  end.

(** A tidy namespace has no leading slash and no two slashes in a row. *)
Definition tidy (ns : QString) : Prop :=
  Qt.startsWith ns slash = false
  ∧ ∀ p r, ns ≠ p ++ slash :: slash :: r.

(** The registry and the containers agree: an action of the registry sits
    under the key made of its namespace and its name and is in the container
    of its namespace, and an action of a container has the namespace of the
    container and is the one the registry holds under its key. *)
Definition consistent {DT} (d : DispatcherPrivate DT) : Prop :=
  (∀ k a, actionHash d !! k = Some a →
          k = ns a ++ slash :: name a ∧ a ∈ containerValue d (ns a))
  ∧ (∀ n a, a ∈ containerValue d n →
            ns a = n ∧ actionHash d !! (n ++ slash :: name a) = Some a).

(** The dispatcher of the examples once the controller [fooFirst] is
    registered: the registry holds the key [a/foo] and the container of the
    namespace [a] holds that action. *)
Definition fooDispatcher : DispatcherPrivate PathType :=
  stateOf (snd (registerControllers [fooFirst] startDispatcher))
          startDispatcher.

(** ** The htpasswd store (Plugins/Authentication/htpasswd.cpp)

    A [QByteArray] is, like a [QString], a list of 8-bit characters, so that
    [toLatin1] and [fromLatin1] are the identity.  The file system is the
    content of the password file ([None] when the file does not exist) and
    the success of the operations that may fail; writes to an open file are
    taken to succeed.  The password file is opened with [QFile::Text], so
    that a line end [\r\n] is read as [\n]; the temporary file is not, and
    what is written to it is written as it is. *)

Module Htpasswd.

Abbreviation QByteArray := (list ascii) (only parsing).

Definition newline : QChar := "010"%char.
Definition cr : QChar := "013"%char.
Definition colon : QChar := ":"%char.
Definition comma : QChar := ","%char.
Definition hash : QChar := "#"%char.

(** [QByteArray::replace(before, after)] for two characters. *)
Definition replace (before after : QChar) (s : QByteArray) : QByteArray :=
  map (fun c => if bool_decide (c = before) then after else c) s.

(** The white space of [QByteArray::trimmed]: the characters 9 to 13 and the
    space. *)
Definition isSpace (c : QChar) : bool :=
  let n := N_of_ascii c in
  ((9 <=? n) && (n <=? 13) || (n =? 32))%N.

Fixpoint dropSpaces (s : QByteArray) : QByteArray :=
  match s with
  | [] => []
  | c :: s' => if isSpace c then dropSpaces s' else s
  end.

(** [QByteArray::trimmed()]. *)
Definition trimmed (s : QByteArray) : QByteArray :=
  rev (dropSpaces (rev (dropSpaces s))).

(** The bytes of the next line of the device: up to the first newline,
    which is included, or all of them when there is none; and what remains
    after the line. *)
Fixpoint readLineData (remaining : QByteArray) : QByteArray * QByteArray :=
  match remaining with
  | [] => ([], [])
  | c :: rest =>
      if bool_decide (c = newline) then ([c], rest)
      else let '(line, rest') := readLineData rest in (c :: line, rest')
  end.

(** The text mode on a line: the line end [\r\n] becomes [\n]. *)
Fixpoint textLine (line : QByteArray) : QByteArray :=
  match line with
  | [] => []
  | c :: rest =>
      if bool_decide (c = cr) && bool_decide (rest = [newline])
      then [newline]
      else c :: textLine rest
  end.

(** [QIODevice::readLine()] of a file opened with [QFile::Text]: the line
    that is returned, and what remains of the file. *)
Definition readLine (remaining : QByteArray) : QByteArray * QByteArray :=
  let '(line, rest) := readLineData remaining in (textLine line, rest).

(** [ParamsMultiMap], a [QMultiMap<QString, QString>]: the values of a key,
    the most recently inserted first. *)
Abbreviation ParamsMultiMap := (gmap (list ascii) (list (list ascii)))
  (only parsing).

(** [QMultiMap::value(key)]: the most recent value, or an empty string. *)
Definition paramValue (m : ParamsMultiMap) (key : QString) : QString :=
  match m !! key with
  | Some (v :: _) => v
  | _ => []
  end.

(** The part of [AuthenticationUser] the store writes: the id and the
    fields; the user is null when it has neither. *)
Record AuthenticationUser : Type := mkUser {
  userId : option (list ascii);
  userFields : gmap (list ascii) (list ascii)
}.

Definition nullUser : AuthenticationUser :=
  {| userId := None; userFields := ∅ |}.

(** The file system as the store sees it. *)
Record FileSystem : Type := mkFileSystem {
  authFile : option (list ascii);
  tmpOpens : bool;
  fileOpens : bool;
  removeOk : bool;
  renameOk : bool
}.

Inductive Warning : Type :=
| FailedToOpenTemporary
| FailedToRemove
| FailedToRename.

(** After [addUser]: the password file, the temporary file that is left
    behind, if any, and the warning that was logged, if any. *)
Record AddResult : Type := mkAddResult {
  newAuthFile : option (list ascii);
  leftTmpFile : option (list ascii);
  warning : option Warning
}.

(** The line [addUser] writes for an entry. *)
Definition entryLine (username password : QByteArray) : QByteArray :=
  username ++ colon :: password ++ [newline].

(** The test of [addUser] on a line of the file. *)
Definition addMatches (username line : QByteArray) : bool :=
  let parts := Qt.split colon line in
  (2 <=? length parts)%nat && bool_decide (head parts = Some username).

(** The [while] loop of [StoreHtpasswd::addUser] on what remains of the
    file, with the variable [wrote] and the content of the temporary
    file. *)
Fixpoint addUser_loop (fuel : nat) (remaining username password : QByteArray)
    (wrote : bool) (tmp : QByteArray) : bool * QByteArray :=
  match fuel with
  | O => (wrote, tmp)
  | S fuel' =>
      if Qt.isEmpty remaining then (wrote, tmp)
      else
        let '(line, rest) := readLine remaining in
        let '(line, wrote) :=
          if negb wrote && addMatches username line then
            (entryLine username (replace colon comma password), true)
          else (line, wrote) in
        addUser_loop fuel' rest username password wrote (tmp ++ line)
  end.

(** [StoreHtpasswd::addUser].  Every turn of the loop reads at least one
    byte, so as many turns as the file has bytes are enough (lemma
    [addUser_loop_lines]). *)
Definition addUser (fs : FileSystem) (user : ParamsMultiMap) : AddResult :=
  let username := paramValue user (qs "username") in
  if negb (tmpOpens fs) then
    {| newAuthFile := authFile fs; leftTmpFile := None;
       warning := Some FailedToOpenTemporary |}
  else
    let '(wrote, tmp) :=
      match authFile fs with
      | Some content =>
          if fileOpens fs then
            addUser_loop (length content) content username
                         (paramValue user (qs "password")) false []
          else (false, [])
      | None => (false, [])
      end in
    let tmp :=
      if negb wrote then
        tmp ++ entryLine username (paramValue user (qs "password"))
      else tmp in
    if bool_decide (is_Some (authFile fs)) && negb (removeOk fs) then
      {| newAuthFile := authFile fs; leftTmpFile := Some tmp;
         warning := Some FailedToRemove |}
    else if negb (renameOk fs) then
      {| newAuthFile := None; leftTmpFile := Some tmp;
         warning := Some FailedToRename |}
    else
      {| newAuthFile := Some tmp; leftTmpFile := None; warning := None |}.

(** The test of [findUser] on a line of the file. *)
Definition findMatches (username line : QByteArray) : bool :=
  let parts := Qt.split colon (trimmed line) in
  (2 <=? length parts)%nat
  && match head parts with
     | Some first =>
         negb (Qt.startsWith first hash) && bool_decide (first = username)
     | None => false
     end.

(** The user [findUser] returns for a line that matches. *)
Definition userOfLine (username line : QByteArray) : AuthenticationUser :=
  let parts := Qt.split colon (trimmed line) in
  let password := default [] (parts !! 1%nat) in
  {| userId := Some username;
     userFields := <[qs "password" := replace comma colon password]>
                     (<[qs "username" := username]> ∅) |}.

(** The [while] loop of [StoreHtpasswd::findUser]. *)
Fixpoint findUser_loop (fuel : nat) (remaining username : QByteArray)
  : AuthenticationUser :=
  match fuel with
  | O => nullUser
  | S fuel' =>
      if Qt.isEmpty remaining then nullUser
      else
        let '(line, rest) := readLine remaining in
        if findMatches username line then userOfLine username line
        else findUser_loop fuel' rest username
  end.

(** [StoreHtpasswd::findUser]; the file opens for reading when it exists and
    the file system lets it. *)
Definition findUser (fs : FileSystem) (userInfo : ParamsMultiMap)
  : AuthenticationUser :=
  let username := paramValue userInfo (qs "username") in
  match authFile fs with
  | Some content =>
      if fileOpens fs then findUser_loop (length content) content username
      else nullUser
  | None => nullUser
  end.

(** [StoreHtpasswd::forSession]: the id of the user, a null variant for a
    user without id. *)
Definition forSession (user : AuthenticationUser) : option (list ascii) :=
  userId user.

(** [StoreHtpasswd::fromSession]; [toString()] of a null variant is the
    empty string. *)
Definition fromSession (fs : FileSystem) (frozenUser : option (list ascii))
  : AuthenticationUser :=
  findUser fs {[ qs "username" := [default [] frozenUser] ]}.

(** The lines of a content, in their order, each with its line end as it
    is in the file. *)
Fixpoint fileLines (content : QByteArray) : list QByteArray :=
  match content with
  | [] => []
  | c :: rest =>
      if bool_decide (c = newline) then [c] :: fileLines rest
      else match fileLines rest with
           | [] => [[c]]
           | line :: lines => (c :: line) :: lines
           end
  end.

(** What is read of a content in text mode, line after line. *)
Definition textContent (content : QByteArray) : QByteArray :=
  concat (map textLine (fileLines content)).

(** A file system on which every operation succeeds. *)
Definition healthy (content : option (list ascii)) : FileSystem :=
  {| authFile := content; tmpOpens := true; fileOpens := true;
     removeOk := true; renameOk := true |}.

Definition credentials (username password : string) : ParamsMultiMap :=
  {[ qs "username" := [qs username]; qs "password" := [qs password] ]}.





End Htpasswd.

(** ** The response (response.cpp)

    [ResponsePrivate] is declared in response_p.h; its members are read off
    their uses: [body] is a [QVariant], [cookies] a map from the name of a
    cookie to the cookies of that name ([insertMulti], [insert] and [value]
    are those of [QMap] and of [QHash], which agree on what is modelled
    here), [headers] an object of the class [Headers]. *)

Module Response.

(** What [redirect] reads of a [QUrl]. *)
Record QUrl : Type := mkUrl {
  isValid : bool;
  toEncoded : list ascii
}.

(** A [QNetworkCookie]: its name and the rest of it. *)
Record QNetworkCookie : Type := mkCookie {
  cookieName : list ascii;
  cookieValue : list ascii
}.

(** The default-constructed cookie, which [value] returns for a name that
    is not in the map. *)
Definition emptyCookie : QNetworkCookie :=
  {| cookieName := []; cookieValue := [] |}.

(** What the [QVariant] of the body holds when it is not null. *)
Inductive BodyValue : Type :=
| Bytes (b : list ascii)
| Text (s : list ascii)
| Device (device : nat).

(** The class [Headers], as far as the response writes to it. *)
Class HeadersClass (Hdr : Type) : Type := {
  setContentType : QString → Hdr → Hdr
}.

Record ResponsePrivate (Hdr : Type) : Type := mkResponse {
  status : Z;
  body : option BodyValue;
  location : QUrl;
  headers : Hdr;
  cookies : gmap (list ascii) (list QNetworkCookie)
}.

Arguments mkResponse {Hdr}.
Arguments status {Hdr}.
Arguments body {Hdr}.
Arguments location {Hdr}.
Arguments headers {Hdr}.
Arguments cookies {Hdr}.

Definition newline : QChar := "010"%char.

(** The two literals of [redirect]. *)
Definition movedHead : list ascii :=
  qs "<!DOCTYPE html PUBLIC " ++ dquote
  :: qs "-//W3C//DTD XHTML 1.0Strict//EN" ++ dquote :: qs " " ++ dquote
  :: qs "http://www.w3.org/TR/xhtml1/DTD/xhtml1-strict.dtd" ++ dquote
  :: qs ">" ++ newline
  :: qs "<html xmlns=" ++ dquote :: qs "http://www.w3.org/1999/xhtml"
  ++ dquote :: qs ">" ++ newline
  :: qs "  <head>" ++ newline
  :: qs "    <title>Moved</title>" ++ newline
  :: qs "  </head>" ++ newline
  :: qs "  <body>" ++ newline
  :: qs "     <p>This item has moved <a href=".

Definition movedTail : list ascii :=
  qs ">here</a>.</p>" ++ newline
  :: qs "  </body>" ++ newline
  :: qs "</html>" ++ newline :: [].

Definition movedPage (url : QUrl) : list ascii :=
  movedHead ++ toEncoded url ++ movedTail.

Section Operations.

Context {Hdr : Type} `{HeadersClass Hdr}.

(** [Response::setStatus]. *)
Definition setStatus (s : Z) (d : ResponsePrivate Hdr) : ResponsePrivate Hdr :=
  mkResponse s (body d) (location d) (headers d) (cookies d).

(** [Response::hasBody]. *)
Definition hasBody (d : ResponsePrivate Hdr) : bool :=
  match body d with
  | Some _ => true
  | None => false
  end.

(** [Response::cookie]. *)
Definition cookie (name : list ascii) (d : ResponsePrivate Hdr)
  : QNetworkCookie :=
  match cookies d !! name with
  | Some (c :: _) => c
  | _ => emptyCookie
  end.

(** [insertMulti] and [insert] on the map of the cookies; the most recent
    cookie of a name is the first of its list. *)
Definition insertMulti (c : QNetworkCookie)
    (m : gmap (list ascii) (list QNetworkCookie))
  : gmap (list ascii) (list QNetworkCookie) :=
  <[cookieName c := c :: default [] (m !! cookieName c)]> m.

Definition insertOne (c : QNetworkCookie)
    (m : gmap (list ascii) (list QNetworkCookie))
  : gmap (list ascii) (list QNetworkCookie) :=
  <[cookieName c := c :: tail (default [] (m !! cookieName c))]> m.

Definition with_cookies (d : ResponsePrivate Hdr)
    (m : gmap (list ascii) (list QNetworkCookie)) : ResponsePrivate Hdr :=
  mkResponse (status d) (body d) (location d) (headers d) m.

(** [Response::addCookie]. *)
Definition addCookie (c : QNetworkCookie) (d : ResponsePrivate Hdr)
  : ResponsePrivate Hdr :=
  with_cookies d (insertMulti c (cookies d)).

(** [Response::setCookie]. *)
Definition setCookie (c : QNetworkCookie) (d : ResponsePrivate Hdr)
  : ResponsePrivate Hdr :=
  with_cookies d (insertOne c (cookies d)).

(** [Response::setCookies]. *)
Definition setCookies (cs : list QNetworkCookie) (d : ResponsePrivate Hdr)
  : ResponsePrivate Hdr :=
  foldl (fun d c => with_cookies d (insertMulti c (cookies d))) d cs.

(** The number of cookies the response holds, the size of [cookies()]. *)
Definition cookieCount (d : ResponsePrivate Hdr) : nat :=
  map_fold (fun _ l n => (length l + n)%nat) 0%nat (cookies d).

(** [Response::redirect(const QUrl &, quint16)]. *)
Definition redirect (url : QUrl) (s : Z) (d : ResponsePrivate Hdr)
  : ResponsePrivate Hdr :=
  let d := mkResponse (status d) (body d) url (headers d) (cookies d) in
  let d := setStatus s d in
  if isValid url && negb (hasBody d) then
    mkResponse (status d) (Some (Bytes (movedPage url))) (location d)
               (setContentType (qs "text/html; charset=utf-8") (headers d))
               (cookies d)
  else d.

End Operations.

(** Headers as the list of the content types that were set, the last one
    first. *)
#[global] Instance contentTypes : HeadersClass (list (list ascii)) :=
  {| setContentType := cons |}.

Definition freshResponse : ResponsePrivate (list (list ascii)) :=
  {| status := 200; body := None; location := mkUrl false [];
     headers := []; cookies := ∅ |}.

End Response.

(** * Facts about the operations of QString *)

(** Case analysis on the integer comparisons of the goal. *)
Ltac zcases :=
  repeat match goal with
    | |- context [(?a <? ?b)] => destruct (Z.ltb_spec a b)
    | |- context [(?a <=? ?b)] => destruct (Z.leb_spec a b)
    | |- context [(?a =? ?b)] => destruct (Z.eqb_spec a b)
    end; simpl; try done; try lia.

Section QtFacts.

Implicit Types (s p r : list ascii) (c : ascii).

Lemma mid_prefix p r : Qt.mid (p ++ r) 0 (Qt.size p) = p.
Proof.
  unfold Qt.mid, Qt.size. rewrite length_app.
  zcases; rewrite ?drop_0.
  rewrite Nat2Z.id. apply take_app_length.
Qed.

Lemma mid_suffix p c r n :
  Qt.size r <= n → Qt.mid (p ++ c :: r) (Qt.size p + 1) n = r.
Proof.
  intros Hn. unfold Qt.mid, Qt.size in *. rewrite length_app. simpl length.
  assert (Z.to_nat (Z.of_nat (length p) + 1) = length (p ++ [c])) as Hd
    by (rewrite length_app; simpl; lia).
  zcases; rewrite Hd;
    replace (p ++ c :: r) with ((p ++ [c]) ++ r) by (by rewrite <- app_assoc);
    rewrite drop_app_length; apply take_ge; lia.
Qed.

Lemma mid_at_end s n : Qt.mid s (Qt.size s) n = [].
Proof.
  unfold Qt.mid, Qt.size.
  zcases; rewrite Nat2Z.id, drop_all; apply take_nil.
Qed.

Lemma mid_take s n :
  0 <= n <= Qt.size s → Qt.mid s 0 n = take (Z.to_nat n) s.
Proof.
  intros Hn. unfold Qt.mid, Qt.size in *.
  zcases; rewrite drop_0; try done; f_equal; lia.
Qed.

Lemma scanBackward_bounds c s n :
  -1 <= Qt.scanBackward c s n <= Z.of_nat n.
Proof.
  induction n as [|n IH]; simpl; case_bool_decide; lia.
Qed.

(** Scanning backward from inside a stretch free of [c] that follows an
    occurrence of [c] finds that occurrence. *)
Lemma scanBackward_found c p m r n :
  c ∉ m → (length p <= n <= length p + length m)%nat →
  Qt.scanBackward c (p ++ c :: m ++ r) n = Z.of_nat (length p).
Proof.
  intros Hm. induction n as [|n IH]; intros Hn.
  - assert (length p = 0%nat) as Hp by lia.
    destruct p; [|discriminate]. simpl. by rewrite bool_decide_true.
  - destruct (decide (length p = S n)) as [Heq|Hne].
    + simpl. rewrite bool_decide_true; [lia|].
      rewrite <- Heq. by rewrite list_lookup_middle.
    + simpl. rewrite bool_decide_false; [apply IH; lia|].
      intros Hl. apply Hm.
      rewrite lookup_app_r in Hl by lia.
      destruct (S n - length p)%nat as [|k] eqn:Hk; [lia|]. simpl in Hl.
      rewrite lookup_app_l in Hl by lia.
      by apply list_elem_of_lookup_2 in Hl.
Qed.

Lemma scanBackward_none c p r n :
  c ∉ p → (n < length p)%nat → Qt.scanBackward c (p ++ r) n = -1.
Proof.
  intros Hp. induction n as [|n IH]; intros Hn; simpl.
  - rewrite bool_decide_false; [done|]. intros Hl.
    rewrite lookup_app_l in Hl by lia.
    by apply list_elem_of_lookup_2 in Hl.
  - rewrite bool_decide_false; [apply IH; lia|]. intros Hl.
    rewrite lookup_app_l in Hl by lia.
    by apply list_elem_of_lookup_2 in Hl.
Qed.

Lemma lastIndexOf_bounds s c from :
  -1 <= Qt.lastIndexOf s c from ∧ (0 <= from → Qt.lastIndexOf s c from <= from).
Proof.
  unfold Qt.lastIndexOf.
  zcases;
    match goal with
    | |- context [Qt.scanBackward ?c ?s ?n] =>
        pose proof (scanBackward_bounds c s n)
    end; lia.
Qed.

Lemma lastIndexOf_found c p m r from :
  c ∉ m → Qt.size p <= from <= Qt.size p + Qt.size m →
  Qt.lastIndexOf (p ++ c :: m ++ r) c from = Qt.size p.
Proof.
  intros Hm Hf. unfold Qt.lastIndexOf, Qt.size in *.
  rewrite length_app. simpl length. rewrite length_app.
  zcases. apply scanBackward_found; [done|lia].
Qed.

Lemma lastIndexOf_none c p r from :
  c ∉ p → 0 <= from < Qt.size p → Qt.lastIndexOf (p ++ r) c from = -1.
Proof.
  intros Hp Hf. unfold Qt.lastIndexOf, Qt.size in *. rewrite length_app.
  zcases. apply scanBackward_none; [done|lia].
Qed.

Lemma lastIndexOf_default_found c p m :
  c ∉ m → Qt.lastIndexOf (p ++ c :: m) c (-1) = Qt.size p.
Proof.
  intros Hm. unfold Qt.lastIndexOf, Qt.size. rewrite length_app. simpl length.
  zcases.
  match goal with
  | |- Qt.scanBackward _ _ ?n = _ =>
      pose proof (scanBackward_found c p m [] n Hm) as Hn
  end.
  rewrite app_nil_r in Hn. apply Hn. lia.
Qed.

Lemma lastIndexOf_default_none c s :
  c ∉ s → Qt.lastIndexOf s c (-1) = -1.
Proof.
  intros Hs. unfold Qt.lastIndexOf, Qt.size.
  zcases.
  match goal with
  | |- Qt.scanBackward _ _ ?n = _ =>
      pose proof (scanBackward_none c s [] n Hs) as Hn
  end.
  rewrite app_nil_r in Hn. apply Hn. lia.
Qed.

Lemma scanForward_none c s i : c ∉ s → Qt.scanForward c s i = -1.
Proof.
  revert i. induction s as [|x s IH]; intros i Hs; [done|]. simpl.
  rewrite bool_decide_false by (intros ->; apply Hs; left).
  apply IH. intros Hin. apply Hs. by right.
Qed.

Lemma indexOf_none c s from : c ∉ s → Qt.indexOf s c from = -1.
Proof.
  intros Hs. unfold Qt.indexOf. zcases;
    apply scanForward_none; intros Hin; apply Hs;
    by eapply subseteq_drop.
Qed.

(** A search that starts at the last character finds it there or fails. *)
Lemma indexOf_last c s :
  Qt.indexOf s c (Qt.size s - 1) = -1 ∨
  (0 < Qt.size s ∧ Qt.indexOf s c (Qt.size s - 1) = Qt.size s - 1).
Proof.
  unfold Qt.indexOf, Qt.size.
  destruct (decide (length s = 0%nat)) as [H0|H0].
  - left. zcases.
  - zcases.
    destruct (drop (Z.to_nat (Z.of_nat (length s) - 1)) s) as [|x [|y t]] eqn:Hd.
    + by left.
    + simpl. case_bool_decide; [right; lia|by left].
    + apply (f_equal length) in Hd. rewrite length_drop in Hd. simpl in Hd. lia.
Qed.

Lemma split_nonempty c s : Qt.split c s ≠ [].
Proof. destruct s; simpl; repeat case_match; done. Qed.

Lemma join_cons c x l :
  l ≠ [] → Qt.join c (x :: l) = x ++ c :: Qt.join c l.
Proof. by destruct l. Qed.

Lemma join_split c s : Qt.join c (Qt.split c s) = s.
Proof.
  induction s as [|x s IH]; [done|]. simpl.
  case_bool_decide as Hx.
  - rewrite join_cons by apply split_nonempty. simpl. by rewrite IH, Hx.
  - destruct (Qt.split c s) as [|h t] eqn:Hs.
    + by apply split_nonempty in Hs.
    + destruct t; simpl in *; by rewrite <- IH.
Qed.

Lemma split_no_sep c s : Forall (fun seg => c ∉ seg) (Qt.split c s).
Proof.
  induction s as [|x s IH]; simpl.
  - repeat constructor. apply not_elem_of_nil.
  - case_bool_decide as Hx.
    + constructor; [apply not_elem_of_nil|done].
    + destruct (Qt.split c s) as [|h t]; [repeat constructor|].
      * intros Hin. apply list_elem_of_singleton in Hin. congruence.
      * apply Forall_cons in IH as [Hh Ht]. constructor; [|done].
        intros Hin. apply elem_of_cons in Hin as [Heq|Hin]; [congruence|done].
Qed.

Lemma join_snoc c l s :
  l ≠ [] → Qt.join c (l ++ [s]) = Qt.join c l ++ c :: s.
Proof.
  induction l as [|x l IH]; [done|]. intros _.
  destruct l as [|y l]; [done|].
  change ((x :: y :: l) ++ [s]) with (x :: ((y :: l) ++ [s])).
  rewrite join_cons by (by destruct l).
  rewrite IH by done. rewrite (join_cons c x (y :: l)) by done.
  by rewrite <- app_assoc.
Qed.

End QtFacts.

(** * Forwarding by name *)

Section ForwardFacts.

Context {DT : Type}.
Implicit Types (d : DispatcherPrivate DT) (p nm : list ascii).

Lemma getAction_empty_name d nameSpace : getAction d [] nameSpace = None.
Proof. reflexivity. Qed.

Lemma mid_size (s : list ascii) n :
  0 <= n <= Qt.size s → Qt.size (Qt.mid s 0 n) = n.
Proof.
  intros Hn. rewrite mid_take by done. unfold Qt.size in *.
  rewrite length_take. lia.
Qed.

(** Once the search position is the last character of the path, every
    later turn of the loop splits off an empty name and finds nothing. *)
Lemma invokeAsPath_loop_trailing fuel d (path : list ascii) pos lastPos :
  0 <= pos → pos = Qt.size path - 1 →
  invokeAsPath_loop fuel d path pos lastPos = None.
Proof.
  revert path pos lastPos.
  induction fuel as [|fuel IH]; intros path pos lastPos Hpos Hlast; [done|].
  simpl. destruct (Z.eqb_spec pos (-1)) as [|_]; [lia|].
  replace (pos + 1) with (Qt.size path) by lia.
  rewrite mid_at_end, getAction_empty_name.
  assert (Qt.size (Qt.mid path 0 pos) = pos) as Hsz by (apply mid_size; lia).
  destruct (indexOf_last slash (Qt.mid path 0 pos)) as [Hi|[Hlt Hi]];
    rewrite Hsz in *; rewrite Hi.
  - done.
  - destruct (Z.eqb_spec (pos - 1) (-1)) as [|_]; [done|]. simpl.
    apply IH; lia.
Qed.

(** The first turn at the rightmost slash: the part after it is the name,
    the part before it the namespace. *)
Lemma invokeAsPath_loop_split fuel d p nm lastPos :
  Qt.size nm <= lastPos →
  invokeAsPath_loop (S fuel) d (p ++ slash :: nm) (Qt.size p) lastPos
  = getAction d nm p.
Proof.
  intros Hn. simpl.
  destruct (Z.eqb_spec (Qt.size p) (-1)) as [Hs|_]; [unfold Qt.size in Hs; lia|].
  rewrite mid_suffix, mid_prefix by done.
  destruct (getAction d nm p) as [a|]; [done|].
  destruct (indexOf_last slash p) as [Hi|[Hlt Hi]]; rewrite Hi.
  - done.
  - destruct (Z.eqb_spec (Qt.size p - 1) (-1)) as [|_]; [done|]. simpl.
    apply invokeAsPath_loop_trailing; lia.
Qed.

(** The first turn on a path without a slash: the whole path is the name of
    an action of the root namespace. *)
Lemma invokeAsPath_loop_whole fuel d (path : list ascii) lastPos :
  slash ∉ path →
  invokeAsPath_loop (S fuel) d path (-1) lastPos = getAction d path [].
Proof.
  intros Hp. simpl. destruct (getAction d path []) as [a|]; [done|].
  by rewrite indexOf_none.
Qed.

(** The loop never runs out of turns: any positive number of them gives the
    result of [invokeAsPath]. *)
Lemma invokeAsPath_loop_fuel fuel d (path : list ascii) :
  invokeAsPath_loop (S fuel) d path
    (Qt.lastIndexOf path slash (-1)) (Qt.size path)
  = invokeAsPath_loop (S (length path)) d path
      (Qt.lastIndexOf path slash (-1)) (Qt.size path).
Proof.
  destruct (decide (slash ∈ path)) as [Hin|Hnin].
  - apply list_elem_of_split_r in Hin as (p & nm & -> & Hnm).
    rewrite lastIndexOf_default_found by done.
    rewrite !invokeAsPath_loop_split; [done| |];
      unfold Qt.size; rewrite length_app; simpl; lia.
  - rewrite lastIndexOf_default_none by done.
    by rewrite !invokeAsPath_loop_whole.
Qed.

Lemma invokeAsPath_split d ctx top (rel : list ascii) args p nm :
  last (stack ctx) = Some top → Qt.startsWith rel slash = false →
  (let abs := ns top ++ slash :: rel in
   if Qt.startsWith abs slash then Qt.remove abs 0 1 else abs) = p ++ slash :: nm →
  slash ∉ nm →
  invokeAsPath d ctx rel args = Ret (getAction d nm p).
Proof.
  intros Htop Hrel Hpath Hnm. unfold invokeAsPath, actionRel2Abs.
  rewrite Hrel, Htop. cbn [negb bindO]. cbv zeta in Hpath. rewrite Hpath.
  rewrite lastIndexOf_default_found by done.
  rewrite invokeAsPath_loop_split; [done|].
  unfold Qt.size; rewrite length_app; simpl; lia.
Qed.

Lemma invokeAsPath_whole d ctx top (rel : list ascii) args :
  last (stack ctx) = Some top → Qt.startsWith rel slash = false →
  let abs := ns top ++ slash :: rel in
  let path := if Qt.startsWith abs slash then Qt.remove abs 0 1 else abs in
  slash ∉ path →
  invokeAsPath d ctx rel args = Ret (getAction d path []).
Proof.
  intros Htop Hrel abs path Hp. unfold invokeAsPath, actionRel2Abs.
  rewrite Hrel, Htop. cbn [negb bindO]. fold abs. fold path.
  rewrite lastIndexOf_default_none by done.
  by rewrite invokeAsPath_loop_whole.
Qed.

End ForwardFacts.

(** C1 (amended).  A relative operation name is made absolute by prefixing
    the namespace of the executing action and a slash, and a single leading
    slash is stripped.  The resolution first splits the absolute path at its
    rightmost slash, the part after it being the name and the part before it
    the namespace (the whole path is a name of the root namespace when there
    is no slash), and returns the registry hit of that split when there is
    one.  An action that is returned is the registry hit of a namespace and
    a name taken from the absolute path at a slash.  Forwarding to
    [sibling] from within [a/b] returns [a/b/sibling] when it exists. *)
Theorem forward_relative_name_resolution {DT} (d : DispatcherPrivate DT)
    (ctx : Context) (top : Action) (rel : list ascii) (args : list (list ascii)) :
  last (stack ctx) = Some top →
  Qt.startsWith rel slash = false →
  let abs := ns top ++ slash :: rel in
  let path := if Qt.startsWith abs slash then Qt.remove abs 0 1 else abs in
  actionRel2Abs ctx rel = Ret path
  ∧ (∀ p nm a, path = p ++ slash :: nm → slash ∉ nm →
       getAction d nm p = Some a →
       invokeAsPath d ctx rel args = Ret (Some a))
  ∧ (∀ a, slash ∉ path → getAction d path [] = Some a →
       invokeAsPath d ctx rel args = Ret (Some a))
  ∧ (∀ a, invokeAsPath d ctx rel args = Ret (Some a) →
       ∃ p nm rest, (path = p ++ slash :: nm ++ rest ∨ (p = [] ∧ path = nm))
                    ∧ getAction d nm p = Some a)
  ∧ (ns top = qs "a/b" → rel = qs "sibling" →
     ∀ a, actionHash d !! qs "a/b/sibling" = Some a →
       invokeAsPath d ctx rel args = Ret (Some a)).
Proof.
  intros Htop Hrel abs path. repeat split.
  - unfold actionRel2Abs. by rewrite Hrel, Htop.
  - intros p nm a Hpath Hnm Hhit.
    by rewrite (invokeAsPath_split d ctx top rel args p nm), Hhit.
  - intros a Hp Hhit.
    rewrite (invokeAsPath_whole d ctx top rel args) by done.
    by rewrite <- Hhit.
  - intros a Hres. destruct (decide (slash ∈ path)) as [Hin|Hnin].
    + apply list_elem_of_split_r in Hin as (p & nm & Hpath & Hnm).
      rewrite (invokeAsPath_split d ctx top rel args p nm) in Hres by done.
      exists p, nm, []. rewrite app_nil_r. split; [by left|congruence].
    + rewrite (invokeAsPath_whole d ctx top rel args) in Hres by done.
      exists [], path, []. split; [by right|]. by inversion Hres.
  - intros Hns -> a Hhit.
    rewrite (invokeAsPath_split d ctx top (qs "sibling") args
               (qs "a/b") (qs "sibling")); try done.
    + unfold getAction. simpl. by rewrite <- Hhit.
    + by rewrite Hns.
    + apply (bool_decide_unpack _). by vm_compute.
Qed.

Lemma forward_relative_name_resolution_witness :
  invokeAsPath nestedRegistry contextInAB (qs "sibling") []
  = Ret (Some (publicAction "a/b" "sibling")).
Proof.
  apply (forward_relative_name_resolution nestedRegistry contextInAB
           (publicAction "a/b" "current") (qs "sibling") []
           eq_refl eq_refl);
    reflexivity.
Defined.

(** C1, as stated, fails: within [a/b], with [sibling] registered in [a]
    and in the root namespace but not in [a/b], forwarding to [sibling]
    finds nothing. *)
Lemma forward_sibling_no_backtracking :
  getAction siblingRegistry (qs "sibling") (qs "a/b") = None
  ∧ getAction siblingRegistry (qs "sibling") (qs "a")
    = Some (publicAction "a" "sibling")
  ∧ getAction siblingRegistry (qs "sibling") []
    = Some (publicAction EmptyString "sibling")
  ∧ invokeAsPath siblingRegistry contextInAB (qs "sibling") [] = Ret None.
Proof. repeat split; by vm_compute. Qed.

(** * The namespace walk and the lookup of actions by name *)

Section WalkFacts.

Context {DT : Type}.
Implicit Types (d : DispatcherPrivate DT) (ns k : list ascii).

Lemma scanBackward_lookup c (s : list ascii) n :
  0 <= Qt.scanBackward c s n →
  s !! Z.to_nat (Qt.scanBackward c s n) = Some c.
Proof.
  induction n as [|n IH]; simpl; case_bool_decide as Hc; intros Hge.
  - rewrite Nat2Z.id. exact Hc.
  - lia.
  - rewrite Nat2Z.id. exact Hc.
  - by apply IH.
Qed.

Lemma lastIndexOf_lookup c (s : list ascii) from :
  0 <= Qt.lastIndexOf s c from →
  s !! Z.to_nat (Qt.lastIndexOf s c from) = Some c.
Proof.
  unfold Qt.lastIndexOf. zcases; apply scanBackward_lookup.
Qed.

(** The keys of the walk do not depend on the turns allowed, once there
    are as many as the position. *)
Lemma nsWalk_loop_fuel fuel1 fuel2 ns pos :
  pos <= Z.of_nat fuel1 → pos <= Z.of_nat fuel2 →
  nsWalk_loop fuel1 ns pos = nsWalk_loop fuel2 ns pos.
Proof.
  revert fuel2 pos. induction fuel1 as [|fuel1 IH]; intros fuel2 pos H1 H2.
  - destruct fuel2; simpl; [done|]. zcases.
  - destruct fuel2 as [|fuel2]; simpl; zcases.
    f_equal. pose proof (lastIndexOf_bounds ns slash (pos - 1)).
    apply IH; lia.
Qed.

Lemma getContainers_loop_walk fuel d ns ret pos :
  getContainers_loop fuel d ns ret pos
  = ret ++ flat_map (containerValue d) (nsWalk_loop fuel ns pos).
Proof.
  revert ret pos. induction fuel as [|fuel IH]; intros ret pos; simpl.
  - by rewrite app_nil_r.
  - zcases; [|by rewrite app_nil_r].
    rewrite IH. by rewrite <- app_assoc.
Qed.

(** The loop of [getContainers] never runs out of turns. *)
Lemma getContainers_loop_fuel fuel1 fuel2 d ns ret pos :
  pos <= Z.of_nat fuel1 → pos <= Z.of_nat fuel2 →
  getContainers_loop fuel1 d ns ret pos = getContainers_loop fuel2 d ns ret pos.
Proof.
  intros H1 H2. rewrite !getContainers_loop_walk.
  by rewrite (nsWalk_loop_fuel fuel1 fuel2).
Qed.

Lemma getContainers_walk d ns :
  getContainers d ns = flat_map (containerValue d) (nsWalk ns) ++ rootActions d.
Proof.
  unfold getContainers, nsWalk. case_bool_decide; [|done].
  by rewrite getContainers_loop_walk.
Qed.

Lemma nsWalk_loop_take fuel ns pos :
  pos <= Qt.size ns →
  Forall (fun k => ∃ n, 0 < n <= pos ∧ k = take (Z.to_nat n) ns
                        ∧ (n = pos ∨ ns !! Z.to_nat n = Some slash))
         (nsWalk_loop fuel ns pos).
Proof.
  revert pos. induction fuel as [|fuel IH]; intros pos Hpos; simpl; [done|].
  zcases. constructor.
  - exists pos. split; [lia|]. split; [|by left]. apply mid_take. lia.
  - pose proof (lastIndexOf_bounds ns slash (pos - 1)) as [Hlo Hhi].
    pose proof (lastIndexOf_lookup slash ns (pos - 1)) as Hlk.
    eapply Forall_impl; [apply IH; lia|].
    intros k (n & Hn & -> & Hor). exists n. split; [lia|]. split; [done|].
    right. destruct Hor as [->|Hor]; [apply Hlk; lia|done].
Qed.

Lemma take_ancestor ns (n m : nat) :
  (n < m <= length ns)%nat → ns !! n = Some slash →
  ancestorOf (take n ns) (take m ns).
Proof.
  intros Hnm Hn. exists (drop (S n) (take m ns)).
  rewrite <- (take_drop n (take m ns)) at 1.
  rewrite take_take, Nat.min_l by lia. f_equal.
  apply drop_S. rewrite lookup_take_lt by lia. done.
Qed.

(** Every key of the walk is an ancestor of the keys visited before it. *)
Lemma nsWalk_loop_sorted fuel ns pos :
  pos <= Qt.size ns →
  StronglySorted (fun k anc => ancestorOf anc k) (nsWalk_loop fuel ns pos).
Proof.
  revert pos. induction fuel as [|fuel IH]; intros pos Hpos; simpl;
    [constructor|].
  zcases; [|constructor].
  pose proof (lastIndexOf_bounds ns slash (pos - 1)) as [Hlo Hhi].
  constructor; [apply IH; lia|].
  eapply Forall_impl; [apply nsWalk_loop_take; lia|].
  intros k (n & Hn & -> & Hor). rewrite mid_take by lia.
  unfold Qt.size in *.
  apply take_ancestor; [lia|].
  destruct Hor as [->|Hor]; [|done].
  apply lastIndexOf_lookup. lia.
Qed.

Lemma nsWalk_sorted ns :
  StronglySorted (fun k anc => ancestorOf anc k) (nsWalk ns).
Proof.
  unfold nsWalk. case_bool_decide; [|constructor].
  apply nsWalk_loop_sorted. lia.
Qed.

Lemma fold_left_prepend {A} (P : A → bool) (l acc : list A) :
  fold_left (fun ret x => if P x then x :: ret else ret) l acc
  = rev (List.filter P l) ++ acc.
Proof.
  revert acc. induction l as [|x l IH]; intros acc; simpl; [done|].
  rewrite IH. destruct (P x); simpl; [|done].
  by rewrite <- app_assoc.
Qed.

Lemma rev_filter_flat_map {A B} (P : B → bool) (f : A → list B) (l : list A) :
  rev (List.filter P (flat_map f l))
  = flat_map (fun x => rev (List.filter P (f x))) (rev l).
Proof.
  induction l as [|x l IH]; simpl; [done|].
  rewrite List.filter_app, rev_app_distr, IH, flat_map_app. simpl.
  by rewrite app_nil_r.
Qed.

End WalkFacts.

(** C3 (amended).  [getActions] returns the actions with the given name
    ordered least-specific namespace first: the matches of the cached root
    actions come first, then those of the namespaces of the walk in the
    reverse order of the visits, so the matches of the deepest namespace come
    last; the matches of one namespace are in the reverse order of its
    container.  The walk starts at the deepest namespace and every namespace
    it visits is an ancestor of those visited before.  In particular
    [getActions("show", "a/b")] yields the [show] of the root before that of
    [a] before that of [a/b]. *)
Theorem getActions_least_specific_first {DT} (d : DispatcherPrivate DT)
    (c : ascii) (nm nameSpace : list ascii) :
  let name := c :: nm in
  let named l := rev (List.filter (fun a => bool_decide (actionName a = name)) l) in
  getActions d name nameSpace
  = named (rootActions d)
    ++ flat_map (fun k => named (containerValue d k))
                (rev (nsWalk (cleanNamespace nameSpace)))
  ∧ StronglySorted (fun k anc => ancestorOf anc k)
                   (nsWalk (cleanNamespace nameSpace))
  ∧ (let shows l :=
       rev (List.filter (fun a => bool_decide (actionName a = qs "show")) l) in
     getActions d (qs "show") (qs "a/b")
     = shows (rootActions d) ++ shows (containerValue d (qs "a"))
       ++ shows (containerValue d (qs "a/b"))).
Proof.
  intros name named. split; [|split].
  - unfold getActions. simpl. rewrite fold_left_prepend, app_nil_r.
    rewrite getContainers_walk, List.filter_app, rev_app_distr.
    by rewrite rev_filter_flat_map.
  - apply nsWalk_sorted.
  - intros shows. unfold getActions.
    change (Qt.isEmpty (qs "show")) with false. cbv iota.
    rewrite fold_left_prepend, app_nil_r.
    rewrite getContainers_walk, List.filter_app, rev_app_distr.
    rewrite rev_filter_flat_map.
    change (nsWalk (cleanNamespace (qs "a/b"))) with [qs "a/b"; qs "a"].
    simpl. by rewrite app_nil_r.
Qed.

(** C3, as stated, fails: with an action [show] in [a/b], in [a] and in the
    root namespace, the [show] of the root comes first and the one of [a/b]
    last. *)
Lemma getActions_root_first :
  getActions showRegistry (qs "show") (qs "a/b")
  = [publicAction EmptyString "show"; publicAction "a" "show"; publicAction "a/b" "show"].
Proof. by vm_compute. Qed.

(** * Lookups with an empty name, dispatch without an action, URIs *)

(** C10.  With an empty name [getAction] returns the null pointer and
    [getActions] the empty list, whatever the registry and the namespace. *)
Theorem lookups_with_empty_name {DT} (d : DispatcherPrivate DT)
    (nameSpace : list ascii) :
  getAction d [] nameSpace = None ∧ getActions d [] nameSpace = [].
Proof. split; reflexivity. Qed.

(** C6.  On a context without a resolved action [dispatch] returns [false]
    and reports exactly one error: the message about the missing default
    action when the request path is empty, the message about the unknown
    resource, which names the path, otherwise.  It neither exits nor runs
    into undefined behaviour. *)
Theorem dispatch_without_action {DT} `{DispatchType DT} `{Collaborators DT}
    (d : DispatcherPrivate DT) (ctx : Context) :
  action ctx = None →
  ∃ msg, dispatch d ctx = Ret (false, error ctx msg)
         ∧ errors (error ctx msg) = errors ctx ++ [msg]
         ∧ msg = (if Qt.isEmpty (path (req ctx))
                  then qs "No default action defined"
                  else qs "Unknown resource " ++ dquote :: path (req ctx)
                          ++ dquote :: qs ".").
Proof.
  intros Hact. unfold dispatch. rewrite Hact.
  destruct (Qt.isEmpty (path (req ctx))); eexists; repeat split.
Qed.

Lemma dispatch_without_action_witness :
  ∃ msg,
    @dispatch PathType (quietCollaborators PathType) literalDispatcher
              (freshContext "nonexistent")
    = Ret (false, error (freshContext "nonexistent") msg)
    ∧ errors (error (freshContext "nonexistent") msg)
      = errors (freshContext "nonexistent") ++ [msg]
    ∧ msg = (if Qt.isEmpty (path (req (freshContext "nonexistent")))
             then qs "No default action defined"
             else qs "Unknown resource " ++ dquote
                     :: path (req (freshContext "nonexistent"))
                     ++ dquote :: qs ".").
Proof.
  apply (@dispatch_without_action PathType PathType_DispatchType
           (quietCollaborators PathType) literalDispatcher
           (freshContext "nonexistent")).
  reflexivity.
Defined.

Section UriFacts.

Context {DT : Type} `{DispatchType DT}.

Lemma uriForAction_loop_spec (ds : list DT) a caps :
  uriForAction_loop ds a caps
  = match omap (fun t => dt_uriForAction t a caps) ds with
    | [] => None
    | uri :: _ => Some (if Qt.isEmpty uri then qs "/" else uri)
    end.
Proof.
  induction ds as [|t ds IH]; simpl; [done|].
  by destruct (dt_uriForAction t a caps).
Qed.

Lemma uriForAction_loop_skip (pre : list DT) ds a caps :
  (∀ t, t ∈ pre → dt_uriForAction t a caps = None) →
  uriForAction_loop (pre ++ ds) a caps = uriForAction_loop ds a caps.
Proof.
  induction pre as [|t pre IH]; intros Hpre; simpl; [done|].
  rewrite (Hpre t) by left. apply IH. intros t' Ht'. apply Hpre. by right.
Qed.

End UriFacts.

(** C7.  [uriForAction] offers the action and the captures to the dispatch
    types in order and returns the first result that is not null, the empty
    result being replaced by the root path; it returns the null string when
    no dispatch type owns the action. *)
Theorem uriForAction_first_owner {DT} `{DispatchType DT}
    (d : DispatcherPrivate DT) (a : Action) (caps : list (list ascii)) :
  uriForAction d a caps = uriForAction_spec d a caps
  ∧ ((∀ t, t ∈ dispatchers d → dt_uriForAction t a caps = None) →
     uriForAction d a caps = None)
  ∧ (∀ pre t post uri,
       dispatchers d = pre ++ t :: post →
       (∀ t', t' ∈ pre → dt_uriForAction t' a caps = None) →
       dt_uriForAction t a caps = Some uri →
       uriForAction d a caps = Some (if Qt.isEmpty uri then qs "/" else uri)).
Proof.
  unfold uriForAction, uriForAction_spec. split; [|split].
  - apply uriForAction_loop_spec.
  - intros Hnone. rewrite <- (app_nil_r (dispatchers d)).
    by rewrite uriForAction_loop_skip.
  - intros pre t post uri -> Hpre Huri.
    rewrite uriForAction_loop_skip by done. simpl. by rewrite Huri.
Qed.

Lemma uriForAction_first_owner_witness :
  uriForAction literalDispatcher rootAction [] = Some (qs "/")
  ∧ uriForAction literalDispatcher (publicAction "a" "b") [] = Some (qs "a/b")
  ∧ uriForAction literalDispatcher (publicAction "a" "c") [] = None.
Proof.
  split; [|split].
  - apply (proj2 (proj2 (uriForAction_first_owner literalDispatcher rootAction []))
             [emptyPaths] literalPaths [] []); [reflexivity| |reflexivity].
    intros t' Ht'. apply list_elem_of_singleton in Ht'. by subst.
  - apply (proj2 (proj2 (uriForAction_first_owner literalDispatcher
                           (publicAction "a" "b") []))
             [emptyPaths] literalPaths [] (qs "a/b")); [reflexivity| |by vm_compute].
    intros t' Ht'. apply list_elem_of_singleton in Ht'. by subst.
  - apply (proj1 (proj2 (uriForAction_first_owner literalDispatcher
                           (publicAction "a" "c") []))).
    intros t Ht. simpl in Ht.
    apply elem_of_cons in Ht as [->|Ht]; [reflexivity|].
    apply list_elem_of_singleton in Ht. subst. by vm_compute.
Defined.

(** * Path resolution *)

Section ResolutionFacts.

Context {DT : Type} `{DispatchType DT} `{Collaborators DT}.

Lemma takeLast_snoc {A} (l : list A) (x : A) :
  Qt.takeLast (l ++ [x]) = Some (x, l).
Proof. unfold Qt.takeLast. by rewrite last_snoc, removelast_last. Qed.

Lemma isEmpty_size (s : list ascii) :
  Qt.isEmpty s = (Qt.size s <=? 0).
Proof.
  destruct s as [|x s]; [done|]. unfold Qt.size. cbn [length Qt.isEmpty].
  rewrite Nat2Z.inj_succ. symmetry. apply Z.leb_gt. lia.
Qed.

(** The loop of [prepareAction], started on a prefix that is the join of
    the remaining segments, follows the resolution of the specification. *)
Lemma prepareAction_loop_refines (ds : list DT) (rsegs : list (list ascii)) :
  Forall (fun seg => slash ∉ seg) rsegs →
  ∀ fuel args rest ctx,
    Qt.size (Qt.join slash (rev rsegs)) < Z.of_nat fuel →
    prepareAction_loop fuel ds (Qt.join slash (rev rsegs) ++ rest)
      ([] :: rev rsegs) args (Qt.size (Qt.join slash (rev rsegs))) ctx
    = Ret (resolve_spec ds rsegs args ctx).
Proof.
  induction 1 as [|seg r Hseg Hr IH]; intros fuel args rest ctx Hfuel.
  - destruct fuel as [|fuel]; [unfold Qt.size in Hfuel; simpl in Hfuel; lia|].
    cbn [prepareAction_loop resolve_spec rev Qt.join app].
    change (Qt.mid rest 0 (Qt.size [])) with (Qt.mid ([] ++ rest) 0 (Qt.size [])).
    rewrite mid_prefix.
    by destruct (offer ds ctx [] args) as [[] ctx'].
  - destruct fuel as [|fuel]; [unfold Qt.size in Hfuel; lia|].
    cbn [prepareAction_loop resolve_spec]. rewrite mid_prefix.
    destruct (offer ds ctx (Qt.join slash (rev (seg :: r))) args) as [[] ctx'];
      [done|].
    rewrite isEmpty_size.
    destruct (Z.leb_spec (Qt.size (Qt.join slash (rev (seg :: r)))) 0)
      as [|Hpos]; [done|].
    simpl rev in *. rewrite app_comm_cons, takeLast_snoc.
    destruct (decide (r = [])) as [->|Hne].
    + cbn [rev app Qt.join] in *. rewrite lastIndexOf_none; [|done|lia].
      cbn [Z.eqb]. apply (IH fuel _ (seg ++ rest) ctx').
      unfold Qt.size in *. cbn [length] in *. lia.
    + assert (rev r ≠ []) as Hrev
        by (intros Hnil; apply Hne; by rewrite <- (rev_involutive r), Hnil).
      rewrite join_snoc in * by done. rewrite <- app_assoc.
      cbn [app]. rewrite lastIndexOf_found;
        [|done|unfold Qt.size; rewrite length_app; cbn [length]; lia].
      destruct (Z.eqb_spec (Qt.size (Qt.join slash (rev r))) (-1)) as [Hm|_];
        [unfold Qt.size in Hm; lia|].
      apply IH. unfold Qt.size in *. rewrite length_app in Hfuel.
      cbn [length] in Hfuel. lia.
Qed.

(** [prepareAction] is the resolution of the specification; in particular
    it neither runs out of turns nor takes the last of an empty list. *)
Lemma prepareAction_refines (d : DispatcherPrivate DT) (ctx : Context) :
  prepareAction d ctx = Ret (prepareAction_spec d ctx).
Proof.
  unfold prepareAction, prepareAction_spec.
  pose proof (prepareAction_loop_refines (dispatchers d)
                (rev (Qt.split slash (path (req ctx))))) as Href.
  rewrite rev_involutive, join_split in Href.
  specialize (Href (Forall_rev (split_no_sep slash _))
                (S (length (path (req ctx)))) [] [] ctx).
  rewrite app_nil_r in Href. apply Href. unfold Qt.size. lia.
Qed.

Lemma offer_no_match (ds : list DT) ctx cand args :
  (∀ t c, t ∈ ds → dt_match t c cand args = (NoMatch, c)) →
  offer ds ctx cand args = (false, ctx).
Proof.
  induction ds as [|t ds IH]; intros Hno; simpl; [done|].
  rewrite (Hno t ctx) by left. apply IH. intros t' c Ht'. apply Hno. by right.
Qed.

Lemma resolve_spec_no_match (ds : list DT) rsegs args ctx :
  (∀ cand args', offer ds ctx cand args' = (false, ctx)) →
  resolve_spec ds rsegs args ctx = ctx.
Proof.
  intros Hno. revert args. induction rsegs as [|seg r IH]; intros args; simpl.
  - by rewrite Hno.
  - rewrite Hno. by destruct (Qt.isEmpty _).
Qed.






End ResolutionFacts.


(** C4.  [prepareAction] is the backtracking of the specification: the full
    path is offered first to the dispatch types in their order, the first
    [ExactMatch] ends the search and, without a match, the last segment
    moves, decoded, to the front of the arguments and the shorter prefix is
    tried.  Consequently, with a literal action at [/a/b] and none below it,
    the request [/a/b/extra/segments] resolves to that action with the
    arguments [extra] and [segments], in the order of the path. *)
Theorem prepareAction_longest_prefix {DT} `{DispatchType DT} `{Collaborators DT}
    (d : DispatcherPrivate DT) (ctx : Context) :
  prepareAction d ctx = Ret (prepareAction_spec d ctx)
  ∧ (∀ a,
       path (req ctx) = qs "/a/b/extra/segments" →
       fromPercentEncoding (qs "extra") = qs "extra" →
       fromPercentEncoding (qs "segments") = qs "segments" →
       (∀ args, offer (dispatchers d) ctx (qs "/a/b") args
                = (true, resolved ctx a (qs "/a/b") args)) →
       (∀ more args, offer (dispatchers d) ctx (qs "/a/b" ++ slash :: more) args
                     = (false, ctx)) →
       prepareAction d ctx
       = Ret (resolved ctx a (qs "/a/b") [qs "extra"; qs "segments"])).
Proof.
  split; [apply prepareAction_refines|].
  intros a Hpath Hextra Hsegments Hlit Hlonger.
  rewrite prepareAction_refines. unfold prepareAction_spec. rewrite Hpath.
  change (rev (Qt.split slash (qs "/a/b/extra/segments")))
    with [qs "segments"; qs "extra"; qs "b"; qs "a"; []].
  cbn [resolve_spec].
  change (Qt.join slash (rev [qs "segments"; qs "extra"; qs "b"; qs "a"; []]))
    with (qs "/a/b" ++ slash :: qs "extra/segments").
  rewrite Hlonger.
  change (Qt.isEmpty (qs "/a/b" ++ slash :: qs "extra/segments")) with false.
  change (Qt.join slash (rev [qs "extra"; qs "b"; qs "a"; []]))
    with (qs "/a/b" ++ slash :: qs "extra").
  rewrite Hlonger.
  change (Qt.isEmpty (qs "/a/b" ++ slash :: qs "extra")) with false.
  change (Qt.join slash (rev [qs "b"; qs "a"; []])) with (qs "/a/b").
  rewrite Hlit. cbv iota.
  by rewrite Hextra, Hsegments.
Qed.

Lemma remove_first c (s : list ascii) : Qt.remove (c :: s) 0 1 = s.
Proof.
  unfold Qt.remove, Qt.size. cbn [length]. rewrite Nat2Z.inj_succ.
  zcases. assert (length s = 0%nat) as Hs by lia. by destruct s.
Qed.

Lemma literalPaths_below_ab more :
  paths literalPaths !! (qs "a/b" ++ slash :: more) = None.
Proof.
  unfold literalPaths. cbn [paths].
  rewrite !lookup_insert_ne by done. apply lookup_empty.
Qed.

Lemma prepareAction_longest_prefix_witness :
  @prepareAction PathType PathType_DispatchType (quietCollaborators PathType)
    literalDispatcher (freshContext "/a/b/extra/segments")
  = Ret (resolved (freshContext "/a/b/extra/segments") (publicAction "a" "b")
           (qs "/a/b") [qs "extra"; qs "segments"]).
Proof.
  apply (proj2 (@prepareAction_longest_prefix PathType PathType_DispatchType
                  (quietCollaborators PathType) literalDispatcher
                  (freshContext "/a/b/extra/segments"))).
  - reflexivity.
  - reflexivity.
  - reflexivity.
  - intros args. reflexivity.
  - intros more args. cbn [dispatchers literalDispatcher offer dt_match
                           PathType_DispatchType].
    change (qs "/a/b" ++ slash :: more) with (slash :: qs "a/b" ++ slash :: more).
    cbn [Qt.startsWith]. rewrite bool_decide_true by done.
    rewrite remove_first, literalPaths_below_ab.
    reflexivity.
Defined.



(** * Set-up of the registry *)

Section SetupFacts.

Context {DT : Type} `{DispatchType DT} `{Collaborators DT}.

Implicit Types (d : DispatcherPrivate DT) (a b : Action) (ds : list DT).

Lemma with_dispatchers_same d : with_dispatchers d (dispatchers d) = d.
Proof. by destruct d. Qed.

(** What [registerOne] does with an action whose reverse key is in the
    registry. *)
Lemma registerOne_duplicate d instanceUsed a other :
  actionHash d !! reverse a = Some other →
  registerOne d instanceUsed a
  = if negb (isInternalName (name a)) then
      ([NotRegistered a], Ret (d, instanceUsed))
    else if showInternalActions d then
      ([AlreadyRegistered a (controller other)], Exit 1)
    else ([], Ret (d, instanceUsed)).
Proof.
  intros Hkey. unfold registerOne.
  rewrite bool_decide_true by (by rewrite Hkey).
  cbn [negb]. rewrite with_dispatchers_same, Hkey. done.
Qed.

(** What [registerOne] does with an action that gets registered. *)
Lemma registerOne_claimed d instanceUsed a :
  actionHash d !! reverse a = None → claimed d a →
  ∃ d', registerOne d instanceUsed a = ([], Ret (d', true))
        ∧ actionHash d' = <[ns a ++ slash :: name a := a]> (actionHash d)
        ∧ showInternalActions d' = showInternalActions d.
Proof.
  intros Hkey Hcl. unfold registerOne.
  rewrite bool_decide_false by (rewrite Hkey; by intros [? ?]).
  cbn [negb]. destruct Hcl as [Hpriv|Hreg].
  - rewrite bool_decide_true by done. cbn [negb]. eexists. by repeat split.
  - case_bool_decide; cbn [negb]; [eexists; by repeat split|].
    destruct (registerWithAll (dispatchers d) a) as [ds' r].
    simpl in Hreg. subst r. eexists. by repeat split.
Qed.

(** The fatal path is taken at most once by a step, and exactly when the
    step exits. *)
Lemma registerOne_criticals d instanceUsed a l o :
  registerOne d instanceUsed a = (l, o) →
  match o with
  | Exit c => c = 1 ∧ criticals l = 1%nat
  | _ => criticals l = 0%nat
  end.
Proof.
  unfold registerOne.
  destruct (if negb (bool_decide (is_Some (actionHash d !! reverse a)))
            then _ else _) as [ds registered].
  destruct registered; [by intros [= <- <-]|].
  destruct (negb (isInternalName (name a))); [by intros [= <- <-]|].
  change (showInternalActions (with_dispatchers d ds))
    with (showInternalActions d).
  destruct (showInternalActions d); [|by intros [= <- <-]].
  change (actionHash (with_dispatchers d ds)) with (actionHash d).
  destruct (actionHash d !! reverse a); by intros [= <- <-].
Qed.

Lemma criticals_app l1 l2 : criticals (l1 ++ l2) = (criticals l1 + criticals l2)%nat.
Proof.
  induction l1 as [|[] l1 IH]; simpl; [done|done|by rewrite IH].
Qed.

Lemma registerActions_criticals acts d instanceUsed l o :
  registerActions acts d instanceUsed = (l, o) →
  match o with
  | Exit c => c = 1 ∧ criticals l = 1%nat
  | _ => criticals l = 0%nat
  end.
Proof.
  revert d instanceUsed l o.
  induction acts as [|a acts IH]; intros d iu l o; simpl.
  - by intros [= <- <-].
  - destruct (registerOne d iu a) as [l1 o1] eqn:Hone.
    apply registerOne_criticals in Hone.
    destruct o1 as [[d' used]|c|]; try by intros [= <- <-].
    destruct (registerActions acts d' used) as [l2 o2] eqn:Hrest.
    apply IH in Hrest. intros [= <- <-]. rewrite criticals_app, Hone.
    by destruct o2.
Qed.

Lemma registerController_criticals d c l o :
  registerController d c = (l, o) →
  match o with
  | Exit c => c = 1 ∧ criticals l = 1%nat
  | _ => criticals l = 0%nat
  end.
Proof.
  unfold registerController.
  destruct (registerActions (actions c) d false) as [l1 o1] eqn:Hacts.
  apply registerActions_criticals in Hacts.
  destruct o1 as [[d' used]|c'|]; by intros [= <- <-].
Qed.

Lemma registerControllers_criticals cs d l o :
  registerControllers cs d = (l, o) →
  match o with
  | Exit c => c = 1 ∧ criticals l = 1%nat
  | _ => criticals l = 0%nat
  end.
Proof.
  revert d l o. induction cs as [|c cs IH]; intros d l o; simpl.
  - by intros [= <- <-].
  - destruct (registerController d c) as [l1 o1] eqn:Hone.
    apply registerController_criticals in Hone.
    destruct o1 as [d'|c'|]; try by intros [= <- <-].
    destruct (registerControllers cs d') as [l2 o2] eqn:Hrest.
    apply IH in Hrest. intros [= <- <-]. rewrite criticals_app, Hone.
    by destruct o2.
Qed.

Lemma setupActions_criticals d cs l o :
  setupActions d cs = (l, o) →
  match o with
  | Exit c => c = 1 ∧ criticals l = 1%nat
  | _ => criticals l = 0%nat
  end.
Proof.
  unfold setupActions.
  destruct (registerControllers cs d) as [l1 o1] eqn:Hcs.
  apply registerControllers_criticals in Hcs.
  destruct o1 as [d'|c'|]; by intros [= <- <-].
Qed.

End SetupFacts.

(** C2 (amended).  During the set-up, an action whose reverse key is in the
    registry already takes the fatal path (the critical line is logged and
    the process exits with status 1) when diagnostics are on and its name is
    one of the five names of the life cycle; with another name it is logged
    as not registered, it is not inserted and the set-up goes on; with
    diagnostics off it is not inserted.  Two actions with identical namespace
    and name, a name of the life cycle, of which the first gets registered,
    take the fatal path exactly once, and no set-up takes it more than
    once. *)
Theorem duplicate_registration {DT} `{DispatchType DT} `{Collaborators DT}
    (d : DispatcherPrivate DT) :
  (∀ instanceUsed a other,
     actionHash d !! reverse a = Some other →
     (isInternalName (name a) = true → showInternalActions d = true →
      registerOne d instanceUsed a
      = ([AlreadyRegistered a (controller other)], Exit 1))
     ∧ (isInternalName (name a) = false →
        registerOne d instanceUsed a
        = ([NotRegistered a], Ret (d, instanceUsed)))
     ∧ (showInternalActions d = false →
        ∃ l, registerOne d instanceUsed a = (l, Ret (d, instanceUsed))))
  ∧ (∀ c1 c2 a1 a2,
       showInternalActions d = true →
       actions c1 = [a1] → actions c2 = [a2] →
       ns a1 = ns a2 → name a1 = name a2 →
       reverse_wf a1 → reverse_wf a2 →
       isInternalName (name a1) = true →
       actionHash d !! reverse a1 = None → claimed d a1 →
       setupActions d [c1; c2]
       = ([AlreadyRegistered a2 (controller a1)], Exit 1))
  ∧ (∀ cs l o,
       setupActions d cs = (l, o) →
       match o with
       | Exit c => c = 1 ∧ criticals l = 1%nat
       | _ => criticals l = 0%nat
       end).
Proof.
  split; [|split].
  - intros iu a other Hkey. repeat split.
    + intros Hint Hdiag. rewrite (registerOne_duplicate d iu a other Hkey).
      by rewrite Hint, Hdiag.
    + intros Hint. rewrite (registerOne_duplicate d iu a other Hkey).
      by rewrite Hint.
    + intros Hdiag. rewrite (registerOne_duplicate d iu a other Hkey).
      rewrite Hdiag. destruct (negb (isInternalName (name a))); by eexists.
  - intros c1 c2 a1 a2 Hdiag Hc1 Hc2 Hns Hname Hwf1 Hwf2 Hint Hnew Hcl.
    destruct (registerOne_claimed d false a1 Hnew Hcl) as (d1 & Hone & Hhash & Hshow).
    unfold setupActions.
    cbn [registerControllers]. unfold registerController at 1. rewrite Hc1.
    cbn [registerActions]. rewrite Hone. cbn [app].
    unfold registerController. rewrite Hc2. cbn [registerActions].
    rewrite (registerOne_duplicate _ false a2 a1).
    + rewrite <- Hname, Hint. cbn [negb].
      change (showInternalActions (with_constrollerHash d1 _))
        with (showInternalActions d1).
      by rewrite Hshow, Hdiag.
    + change (actionHash (with_constrollerHash d1 _)) with (actionHash d1).
      rewrite Hhash, Hwf2, <- Hns, <- Hname.
      apply lookup_insert_eq.
  - intros cs l o. apply setupActions_criticals.
Qed.

Lemma duplicate_registration_witness :
  @setupActions PathType PathType_DispatchType (quietCollaborators PathType)
    (bareDispatcher true) [beginFirst; beginSecond]
  = ([AlreadyRegistered (privateAction "a" "_BEGIN" "Second") (qs "First")],
     Exit 1).
Proof.
  apply (proj1 (proj2 (@duplicate_registration PathType PathType_DispatchType
                         (quietCollaborators PathType) (bareDispatcher true)))
           beginFirst beginSecond
           (privateAction "a" "_BEGIN" "First")
           (privateAction "a" "_BEGIN" "Second"));
    try reflexivity.
  left. apply (bool_decide_unpack _). by vm_compute.
Defined.

(** C2, as stated, fails: with diagnostics on, the second of two actions
    [a/foo] finds its reverse key in the registry and is only logged as not
    registered; the set-up goes on to its end. *)
Lemma duplicate_foo_not_fatal :
  showInternalActions (bareDispatcher true) = true
  ∧ ∃ d1 d2,
      @registerController PathType PathType_DispatchType
        (bareDispatcher true) fooFirst = ([], Ret d1)
      ∧ actionHash d1 !! reverse (privateAction "a" "foo" "Second")
        = Some (privateAction "a" "foo" "First")
      ∧ @setupActions PathType PathType_DispatchType (quietCollaborators PathType)
          (bareDispatcher true) [fooFirst; fooSecond]
        = ([NotRegistered (privateAction "a" "foo" "Second")], Ret d2).
Proof.
  split; [reflexivity|]. eexists. eexists.
  split; [by vm_compute|]. split; by vm_compute.
Qed.

(** * The cache of the root actions *)

Section RootCacheFacts.

Context {DT : Type} `{DispatchType DT} `{Collaborators DT}.

Implicit Types (d s : DispatcherPrivate DT).

(** The walk of [getContainers] never asks for the root namespace. *)
Lemma nsWalk_nonempty (ns : list ascii) : Forall (fun k => k ≠ []) (nsWalk ns).
Proof.
  unfold nsWalk. case_bool_decide; [|constructor].
  eapply Forall_impl; [apply nsWalk_loop_take; lia|].
  intros k (n & Hn & -> & _) Hnil.
  apply (f_equal length) in Hnil. rewrite length_take in Hnil.
  unfold Qt.size in *. simpl in Hnil. lia.
Qed.

Lemma getContainers_root_frame s acts (ns : list ascii) :
  getContainers (with_containerHash s (<[ [] := acts ]> (containerHash s))) ns
  = getContainers s ns.
Proof.
  rewrite !getContainers_walk. f_equal.
  pose proof (nsWalk_nonempty ns) as Hne.
  induction Hne as [|k ks Hk _ IH]; [done|]. simpl. rewrite IH. f_equal.
  unfold containerValue. cbn [containerHash with_containerHash].
  by rewrite lookup_insert_ne.
Qed.

Lemma getActions_root_frame s acts (name ns : list ascii) :
  getActions (with_containerHash s (<[ [] := acts ]> (containerHash s))) name ns
  = getActions s name ns.
Proof. unfold getActions. by rewrite getContainers_root_frame. Qed.

Lemma notifyControllers_rootActions cs s :
  (∀ c s', ∃ h, setupFinished c s' = with_containerHash s' h) →
  rootActions (notifyControllers cs s) = rootActions s.
Proof.
  intros Hhook. revert s. unfold notifyControllers.
  induction cs as [|c cs IH]; intros s; simpl; [done|].
  rewrite IH. by destruct (Hhook c s) as [h ->].
Qed.

End RootCacheFacts.

(** C8.  The root actions are cached during the set-up from the container
    of the root namespace as it is after the registration and before the
    controllers are notified: whatever the notified controllers add to the
    containers, the cached list, which is what [getContainers] appends for
    the root namespace, stays that snapshot.  Adding actions to the container
    of the root namespace afterwards changes neither the cached list nor the
    results of [getContainers] and [getActions]. *)
Theorem root_actions_snapshot_frozen {DT} `{DispatchType DT} `{Collaborators DT}
    (d : DispatcherPrivate DT) (cs : list Controller) :
  (∀ l d',
     (∀ c s, ∃ h, setupFinished c s = with_containerHash s h) →
     setupActions d cs = (l, Ret d') →
     ∃ d1, registerControllers cs d = (l, Ret d1)
           ∧ rootActions d' = containerValue d1 []
           ∧ ∀ ns, getContainers d' ns
                   = flat_map (containerValue d') (nsWalk ns)
                     ++ containerValue d1 [])
  ∧ (∀ (s : DispatcherPrivate DT) acts,
       let s' := with_containerHash s (<[ [] := acts ]> (containerHash s)) in
       rootActions s' = rootActions s
       ∧ (∀ ns, getContainers s' ns = getContainers s ns)
       ∧ (∀ name ns, getActions s' name ns = getActions s name ns)).
Proof.
  split.
  - intros l d' Hhook. unfold setupActions.
    destruct (registerControllers cs d) as [l1 [d1|c|]] eqn:Hreg;
      intros [= <- <-].
    exists d1. split; [done|].
    assert (rootActions (dropUnused (notifyControllers cs (cacheRootActions d1)))
            = containerValue d1 []) as Hroot
      by (unfold dropUnused; cbn [rootActions with_dispatchers];
          by rewrite notifyControllers_rootActions).
    split; [done|]. intros ns. by rewrite getContainers_walk, Hroot.
  - intros s acts s'. split; [done|]. split.
    + intros ns. apply getContainers_root_frame.
    + intros name ns. apply getActions_root_frame.
Qed.

Lemma root_actions_snapshot_frozen_witness :
  let r := @setupActions PathType PathType_DispatchType
             (busyCollaborators PathType) startDispatcher [rootController] in
  ∃ d1, @registerControllers PathType PathType_DispatchType
          [rootController] startDispatcher = (fst r, Ret d1)
        ∧ rootActions (stateOf (snd r) startDispatcher) = containerValue d1 []
        ∧ ∀ ns, getContainers (stateOf (snd r) startDispatcher) ns
                = flat_map (containerValue (stateOf (snd r) startDispatcher))
                           (nsWalk ns)
                  ++ containerValue d1 [].
Proof.
  intros r.
  apply (proj1 (@root_actions_snapshot_frozen PathType PathType_DispatchType
                  (busyCollaborators PathType) startDispatcher [rootController])
           (fst r) (stateOf (snd r) startDispatcher)).
  - intros c s. eexists. reflexivity.
  - vm_compute. reflexivity.
Defined.

(** The controllers of [busyCollaborators] add their actions to the root
    container when they are notified; the cached root actions are the two
    that were registered before. *)
Example root_snapshot_ignores_later_actions :
  let d' := stateOf (snd (@setupActions PathType PathType_DispatchType
                            (busyCollaborators PathType) startDispatcher
                            [rootController])) startDispatcher in
  rootActions d'
  = [publicAction EmptyString "index"; privateAction EmptyString "_END" "Root"]
  ∧ length (containerValue d' []) = 5%nat
  ∧ getActions d' (qs "show") [] = [].
Proof. repeat split; by vm_compute. Qed.

(** * Setting up twice *)

Section SetupTwiceFacts.

Context {DT : Type} `{DispatchType DT} `{Collaborators DT}.

Implicit Types (d : DispatcherPrivate DT) (a b : Action) (ds : list DT).

Lemma registerWithAll_declined ds a :
  declinedByAll ds a → registerWithAll ds a = (ds, false).
Proof.
  induction 1 as [|t ds Ht _ IH]; simpl; [done|]. by rewrite Ht, IH.
Qed.

Lemma registerWithAll_false ds a :
  steady → snd (registerWithAll ds a) = false → declinedByAll ds a.
Proof.
  intros [Hsame _]. induction ds as [|t ds IH]; simpl; [constructor|].
  pose proof (Hsame t a) as Ht.
  destruct (dt_registerAction t a) as [t' r] eqn:Hreg.
  destruct (registerWithAll ds a) as [ds' r']. simpl in *.
  intros [-> ->]%orb_false_elim. constructor; [|by apply IH].
  by rewrite Hreg, (Ht eq_refl).
Qed.

Lemma registerWithAll_keeps_declined ds a b :
  steady → declinedByAll ds b → declinedByAll (fst (registerWithAll ds a)) b.
Proof.
  intros [Hsame Hstable]. induction 1 as [|t ds Ht _ IH]; simpl; [constructor|].
  pose proof (Hstable t a b) as Hb. pose proof (Hsame (fst (dt_registerAction t a)) b) as Hs.
  destruct (dt_registerAction t a) as [t' r].
  destruct (registerWithAll ds a) as [ds' r']. simpl in *.
  constructor; [|done].
  rewrite Ht in Hb. simpl in Hb.
  destruct (dt_registerAction t' b) as [t'' r''] eqn:Hreg. simpl in *.
  subst r''. by rewrite Hs.
Qed.

(** What a step that returns may have changed. *)
Lemma registerOne_shape d instanceUsed a l d' used :
  registerOne d instanceUsed a = (l, Ret (d', used)) →
  (actionHash d' = actionHash d
   ∨ actionHash d' = <[ns a ++ slash :: name a := a]> (actionHash d))
  ∧ (dispatchers d' = dispatchers d
     ∨ dispatchers d' = fst (registerWithAll (dispatchers d) a))
  ∧ showInternalActions d' = showInternalActions d.
Proof.
  unfold registerOne.
  destruct (bool_decide (is_Some (actionHash d !! reverse a))); cbn [negb].
  - rewrite with_dispatchers_same.
    destruct (negb (isInternalName (name a))); [intros [= _ <- _]; auto|].
    destruct (showInternalActions d) eqn:Hdiag; [|intros [= _ <- _]; auto].
    by destruct (actionHash d !! reverse a).
  - destruct (bool_decide (qs "Private" ∈ attributes a)); cbn [negb].
    + rewrite with_dispatchers_same. intros [= _ <- _]. auto.
    + destruct (registerWithAll (dispatchers d) a) as [ds' r]. cbn [fst].
      destruct r; [intros [= _ <- _]; auto|].
      destruct (negb (isInternalName (name a))); [intros [= _ <- _]; auto|].
      change (showInternalActions (with_dispatchers d ds'))
        with (showInternalActions d).
      destruct (showInternalActions d) eqn:Hdiag; [|intros [= _ <- _]; auto].
      change (actionHash (with_dispatchers d ds')) with (actionHash d).
      by destruct (actionHash d !! reverse a).
Qed.

Lemma registerOne_preserves d instanceUsed a b l d' used :
  steady → settled d b →
  registerOne d instanceUsed a = (l, Ret (d', used)) → settled d' b.
Proof.
  intros Hst Hb Hone.
  apply registerOne_shape in Hone as (Hhash & Hds & _).
  destruct Hb as [Hkey|[Hpub Hdecl]].
  - left. destruct Hhash as [->| ->]; [done|].
    by apply lookup_insert_is_Some'; right.
  - right. split; [done|]. destruct Hds as [->| ->]; [done|].
    by apply registerWithAll_keeps_declined.
Qed.

Lemma registerOne_settles d instanceUsed a l d' used :
  steady → reverse_wf a →
  registerOne d instanceUsed a = (l, Ret (d', used)) → settled d' a.
Proof.
  intros Hst Hwf. unfold registerOne.
  case_bool_decide as Hkey; cbn [negb].
  - rewrite with_dispatchers_same.
    destruct (negb (isInternalName (name a))); [intros [= _ <- _]; by left|].
    destruct (showInternalActions d); [|intros [= _ <- _]; by left].
    by destruct (actionHash d !! reverse a).
  - case_bool_decide as Hpriv; cbn [negb].
    + intros [= _ <- _]. left. cbn [actionHash with_actionHash with_containerHash].
      rewrite Hwf. rewrite lookup_insert_eq. by eexists.
    + destruct (registerWithAll (dispatchers d) a) as [ds' r] eqn:Hall.
      destruct r.
      * intros [= _ <- _]. left.
        cbn [actionHash with_actionHash with_containerHash].
        rewrite Hwf. rewrite lookup_insert_eq. by eexists.
      * assert (declinedByAll (dispatchers d) a) as Hdecl
          by (apply registerWithAll_false; [done|by rewrite Hall]).
        rewrite (registerWithAll_declined _ _ Hdecl) in Hall.
        injection Hall as <-. rewrite with_dispatchers_same.
        destruct (negb (isInternalName (name a)));
          [intros [= _ <- _]; by right|].
        destruct (showInternalActions d); [|intros [= _ <- _]; by right].
        by destruct (actionHash d !! reverse a).
Qed.

(** With diagnostics off a step returns. *)
Lemma registerOne_returns d instanceUsed a :
  showInternalActions d = false →
  ∃ l d' used, registerOne d instanceUsed a = (l, Ret (d', used)).
Proof.
  intros Hdiag. unfold registerOne.
  destruct (if negb (bool_decide (is_Some (actionHash d !! reverse a)))
            then _ else _) as [ds registered].
  destruct registered; [by repeat eexists|].
  destruct (negb (isInternalName (name a))); [by repeat eexists|].
  change (showInternalActions (with_dispatchers d ds))
    with (showInternalActions d).
  rewrite Hdiag. by repeat eexists.
Qed.

(** With diagnostics off a step on a settled action changes nothing. *)
Lemma registerOne_settled d instanceUsed a :
  showInternalActions d = false → settled d a →
  ∃ l, registerOne d instanceUsed a = (l, Ret (d, instanceUsed)).
Proof.
  intros Hdiag Hset.
  destruct (actionHash d !! reverse a) as [other|] eqn:Hkey.
  - rewrite (registerOne_duplicate d instanceUsed a other Hkey), Hdiag.
    destruct (negb (isInternalName (name a))); by eexists.
  - destruct Hset as [[? Hsome]|[Hpub Hdecl]]; [congruence|].
    unfold registerOne. rewrite Hkey.
    rewrite bool_decide_false by (by intros [? ?]).
    rewrite bool_decide_false by done. cbn [negb].
    rewrite (registerWithAll_declined _ _ Hdecl), with_dispatchers_same, Hdiag.
    destruct (negb (isInternalName (name a))); by eexists.
Qed.

Lemma registerActions_settles acts d instanceUsed :
  steady → showInternalActions d = false → Forall reverse_wf acts →
  ∃ l d' used,
    registerActions acts d instanceUsed = (l, Ret (d', used))
    ∧ showInternalActions d' = false
    ∧ (∀ b, settled d b → settled d' b)
    ∧ Forall (settled d') acts.
Proof.
  intros Hst Hdiag Hwf. revert d instanceUsed Hdiag.
  induction Hwf as [|a acts Ha _ IH]; intros d iu Hdiag; simpl.
  - by exists [], d, iu.
  - destruct (registerOne_returns d iu a Hdiag) as (l1 & d1 & u1 & Hone).
    rewrite Hone.
    pose proof (registerOne_shape _ _ _ _ _ _ Hone) as (_ & _ & Hshow).
    destruct (IH d1 u1) as (l2 & d2 & u2 & Hrest & Hdiag2 & Hkeep & Hall);
      [congruence|].
    rewrite Hrest. exists (l1 ++ l2), d2, u2. repeat split; [done| |].
    + intros b Hb. apply Hkeep. by eapply registerOne_preserves.
    + constructor; [|done]. apply Hkeep. by eapply registerOne_settles.
Qed.

Lemma settled_with_constrollerHash d h a :
  settled (with_constrollerHash d h) a ↔ settled d a.
Proof. done. Qed.

Lemma registerControllers_settles cs d :
  steady → showInternalActions d = false →
  Forall (fun c => Forall reverse_wf (actions c)) cs →
  ∃ l d',
    registerControllers cs d = (l, Ret d')
    ∧ showInternalActions d' = false
    ∧ (∀ b, settled d b → settled d' b)
    ∧ Forall (fun c => Forall (settled d') (actions c)) cs.
Proof.
  intros Hst Hdiag Hwf. revert d Hdiag.
  induction Hwf as [|c cs Hc _ IH]; intros d Hdiag; simpl.
  - by exists [], d.
  - unfold registerController.
    destruct (registerActions_settles (actions c) d false Hst Hdiag Hc)
      as (l1 & d1 & u1 & Hacts & Hdiag1 & Hkeep1 & Hall1).
    rewrite Hacts.
    set (d1' := if u1 then with_constrollerHash d1
                            (<[objectName c := c]> (constrollerHash d1))
                else d1).
    assert (∀ b, settled d1 b ↔ settled d1' b) as Heq
      by (intros b; unfold d1'; by destruct u1).
    destruct (IH d1') as (l2 & d2 & Hrest & Hdiag2 & Hkeep2 & Hall2);
      [unfold d1'; by destruct u1|].
    rewrite Hrest. exists (l1 ++ l2), d2. repeat split; [done| |].
    + intros b Hb. apply Hkeep2, Heq, Hkeep1, Hb.
    + constructor; [|done].
      eapply Forall_impl; [exact Hall1|]. intros b Hb. apply Hkeep2, Heq, Hb.
Qed.

Lemma registerActions_settled acts d instanceUsed :
  showInternalActions d = false → Forall (settled d) acts →
  ∃ l, registerActions acts d instanceUsed = (l, Ret (d, instanceUsed)).
Proof.
  intros Hdiag. induction 1 as [|a acts Ha _ [l2 IH]]; simpl; [by eexists|].
  destruct (registerOne_settled d instanceUsed a Hdiag Ha) as [l1 ->].
  rewrite IH. by eexists.
Qed.

Lemma registerControllers_settled cs d :
  showInternalActions d = false →
  Forall (fun c => Forall (settled d) (actions c)) cs →
  ∃ l, registerControllers cs d = (l, Ret d).
Proof.
  intros Hdiag. induction 1 as [|c cs Hc _ [l2 IH]]; simpl; [by eexists|].
  unfold registerController.
  destruct (registerActions_settled (actions c) d false Hdiag Hc) as [l1 ->].
  rewrite IH. by eexists.
Qed.

Lemma notifyControllers_quiet cs d :
  (∀ c s, setupFinished c s = s) → notifyControllers cs d = d.
Proof.
  intros Hquiet. unfold notifyControllers.
  induction cs as [|c cs IH]; simpl; [done|]. by rewrite Hquiet.
Qed.

Lemma settled_finished d a :
  settled d a → settled (dropUnused (cacheRootActions d)) a.
Proof.
  intros [Hkey|[Hpub Hdecl]]; [by left|]. right. split; [done|].
  unfold declinedByAll, dropUnused in *. cbn [dispatchers with_dispatchers].
  apply Forall_forall. intros t [_ Ht]%list_elem_of_filter.
  by eapply Forall_forall in Hdecl.
Qed.

Lemma finished_again d :
  dropUnused (cacheRootActions (dropUnused (cacheRootActions d)))
  = dropUnused (cacheRootActions d).
Proof.
  destruct d as [ah ch ra coh ds diag].
  unfold dropUnused, cacheRootActions, with_rootActions, with_dispatchers,
    containerValue. cbn.
  f_equal. by apply list_filter_filter_l.
Qed.

End SetupTwiceFacts.

(** C9.  With diagnostics off, dispatch types that are steady, controllers
    that leave the dispatcher alone when they are notified and reverse keys
    derived from namespace and name, a first [setupActions] returns, after it
    every action of the controllers is settled (its reverse key is in the
    registry, or no dispatch type claims it), and a second [setupActions]
    with the same controllers returns the same dispatcher: no registry
    entry is added and no container grows. *)
Theorem setupActions_twice {DT} `{DispatchType DT} `{Collaborators DT}
    (d : DispatcherPrivate DT) (cs : list Controller) :
  showInternalActions d = false →
  steady →
  (∀ c s, setupFinished c s = s) →
  (∀ c a, c ∈ cs → a ∈ actions c → reverse_wf a) →
  ∃ l1 d1,
    setupActions d cs = (l1, Ret d1)
    ∧ (∀ c a, c ∈ cs → a ∈ actions c → settled d1 a)
    ∧ ∃ l2, setupActions d1 cs = (l2, Ret d1).
Proof.
  intros Hdiag Hst Hquiet Hwf.
  assert (Forall (fun c => Forall reverse_wf (actions c)) cs) as Hwf'.
  { apply Forall_forall. intros c Hc. apply Forall_forall. intros a Ha.
    by apply (Hwf c a). }
  destruct (registerControllers_settles cs d Hst Hdiag Hwf')
    as (l1 & d1 & Hreg & Hdiag1 & _ & Hall).
  unfold setupActions. rewrite Hreg, notifyControllers_quiet by done.
  exists l1, (dropUnused (cacheRootActions d1)).
  assert (Forall (fun c => Forall (settled (dropUnused (cacheRootActions d1)))
                             (actions c)) cs) as Hall'.
  { eapply Forall_impl; [exact Hall|]. intros c Hc.
    eapply Forall_impl; [exact Hc|]. intros a. apply settled_finished. }
  split; [done|]. split.
  - intros c a Hc Ha.
    eapply Forall_forall in Hall'; [|exact Hc].
    by eapply Forall_forall in Hall'.
  - destruct (registerControllers_settled cs (dropUnused (cacheRootActions d1)))
      as [l2 Hagain]; [done|done|].
    rewrite Hagain, notifyControllers_quiet by done.
    exists l2. by rewrite finished_again.
Qed.

Lemma PathType_steady : @steady PathType PathType_DispatchType.
Proof. split; [intros t a Hno; discriminate Hno|by intros t a b]. Qed.

Lemma setupActions_twice_witness :
  ∃ l1 d1,
    @setupActions PathType PathType_DispatchType (quietCollaborators PathType)
      startDispatcher [rootController] = (l1, Ret d1)
    ∧ (∀ c a, c ∈ [rootController] → a ∈ actions c → settled d1 a)
    ∧ ∃ l2,
        @setupActions PathType PathType_DispatchType (quietCollaborators PathType)
          d1 [rootController] = (l2, Ret d1).
Proof.
  apply (@setupActions_twice PathType PathType_DispatchType
           (quietCollaborators PathType) startDispatcher [rootController]).
  - reflexivity.
  - apply PathType_steady.
  - intros c s. reflexivity.
  - intros c a Hc Ha. apply list_elem_of_singleton in Hc. subst c.
    cbn [actions rootController controllerOf] in Ha.
    repeat (apply elem_of_cons in Ha as [->|Ha]; [reflexivity|]).
    by apply elem_of_nil in Ha.
Defined.

(** After the first set-up of the example the registry holds the three
    actions, and the second set-up only logs that they were not registered
    again. *)
Example setupActions_twice_example :
  let r1 := @setupActions PathType PathType_DispatchType
              (quietCollaborators PathType) startDispatcher [rootController] in
  let d1 := stateOf (snd r1) startDispatcher in
  let r2 := @setupActions PathType PathType_DispatchType
              (quietCollaborators PathType) d1 [rootController] in
  snd r1 = Ret d1 ∧ snd r2 = Ret d1
  ∧ size (actionHash d1) = 3%nat
  ∧ fst r1 = []
  ∧ fst r2 = [NotRegistered (publicAction EmptyString "index");
              NotRegistered (publicAction "a" "show")].
Proof. repeat split; by vm_compute. Qed.

(** C9, as stated, fails: a public action that no dispatch type claims is
    not registered, so after the set-up its reverse key is not in the
    registry; the second set-up returns the same dispatcher all the same. *)
Lemma setupActions_unclaimed_key_absent :
  let a := publicAction "a" "show" in
  let r1 := @setupActions PathType PathType_DispatchType
              (quietCollaborators PathType) (bareDispatcher false)
              [controllerOf "Root" [a]] in
  let d1 := stateOf (snd r1) (bareDispatcher false) in
  let r2 := @setupActions PathType PathType_DispatchType
              (quietCollaborators PathType) d1 [controllerOf "Root" [a]] in
  snd r1 = Ret d1 ∧ actionHash d1 !! reverse a = None ∧ snd r2 = Ret d1.
Proof. repeat split; by vm_compute. Qed.

(** * Cleaning a namespace *)

Section CleanFacts.

Implicit Types (s done rest : list ascii) (last : bool).

Lemma cleanNamespace_body_done (st : list ascii * Z * bool) (idx : list Z) :
  Forall (fun i => snd (fst st) <= i) idx →
  fold_left cleanNamespace_body idx st = st.
Proof.
  induction 1 as [|i idx Hi _ IH]; [done|]. simpl.
  destruct st as [[ret nsSize] last]. simpl in Hi.
  unfold cleanNamespace_body at 2.
  destruct (Z.ltb_spec i nsSize); [lia|]. exact IH.
Qed.

Lemma seq_from_ge (start len : nat) (n : Z) :
  n <= Z.of_nat start →
  Forall (fun i => n <= i) (map Z.of_nat (seq start len)).
Proof.
  intros Hn. apply Forall_forall. intros i Hi.
  apply list_elem_of_fmap in Hi as (j & -> & Hj).
  apply list_elem_of_In, in_seq in Hj. lia.
Qed.

Lemma at_middle done c rest :
  Qt.at_ (done ++ c :: rest) (Z.of_nat (length done)) = Some c.
Proof.
  unfold Qt.at_. destruct (Z.ltb_spec (Z.of_nat (length done)) 0); [lia|].
  rewrite Nat2Z.id. apply list_lookup_middle. done.
Qed.

Lemma remove_middle done c rest :
  Qt.remove (done ++ c :: rest) (Z.of_nat (length done)) 1 = done ++ rest.
Proof.
  unfold Qt.remove, Qt.size. rewrite length_app. cbn [length].
  zcases.
  - assert (length rest = 0%nat) as Hr by lia.
    destruct rest; [|discriminate]. rewrite Nat2Z.id, app_nil_r.
    apply take_app_length.
  - rewrite Nat2Z.id, take_app_length. f_equal.
    replace (Z.to_nat (Z.of_nat (length done) + 1)) with (length (done ++ [c]))
      by (rewrite length_app; simpl; lia).
    replace (done ++ c :: rest) with ((done ++ [c]) ++ rest)
      by (by rewrite <- app_assoc).
    apply drop_app_length.
Qed.

(** The loop, from the counter [done.size()] on, on the string
    [done ++ rest]. *)
Lemma cleanNamespace_loop_rest (k : nat) :
  ∀ done rest last,
    (length rest <= k)%nat →
    fst (fst (fold_left cleanNamespace_body
       (map Z.of_nat (seq (length done) k))
       (done ++ rest, Qt.size (done ++ rest), last)))
    = done ++ cleanRest last rest.
Proof.
  induction k as [|k IH]; intros done rest last Hk.
  - destruct rest; [done|simpl in Hk; lia].
  - destruct rest as [|c rest].
    + rewrite cleanNamespace_body_done; [done|].
      apply seq_from_ge. simpl. unfold Qt.size. rewrite app_nil_r. lia.
    + cbn [seq map fold_left]. unfold cleanNamespace_body at 2.
      destruct (Z.ltb_spec (Z.of_nat (length done)) (Qt.size (done ++ c :: rest)))
        as [_|Hge];
        [|unfold Qt.size in Hge; rewrite length_app in Hge; simpl in Hge; lia].
      rewrite at_middle. cbn [cleanRest] in *. simpl in Hk.
      assert (S (length done) = length (done ++ [c])) as Hlen
        by (rewrite length_app; simpl; lia).
      assert (done ++ c :: rest = (done ++ [c]) ++ rest) as Happ
        by (by rewrite <- app_assoc).
      case_bool_decide as Hc; [destruct last|].
      * rewrite remove_middle. destruct rest as [|kept rest].
        { rewrite cleanNamespace_body_done; [done|].
          apply seq_from_ge. simpl. unfold Qt.size.
          rewrite !length_app. simpl. lia. }
        assert (S (length done) = length (done ++ [kept])) as Hlen'
          by (rewrite length_app; simpl; lia).
        replace (Qt.size (done ++ c :: kept :: rest) - 1)
          with (Qt.size ((done ++ [kept]) ++ rest))
          by (unfold Qt.size; rewrite !length_app; simpl; lia).
        replace (done ++ kept :: rest) with ((done ++ [kept]) ++ rest)
          by (by rewrite <- app_assoc).
        rewrite Hlen', IH by (simpl in Hk; lia). by rewrite <- app_assoc.
      * rewrite Hlen, Happ, IH by lia. by rewrite <- app_assoc.
      * rewrite Hlen, Happ, IH by lia. by rewrite <- app_assoc.
Qed.

(** [cleanNamespace] is the one pass that starts as after a slash. *)
Lemma cleanNamespace_cleanRest s : cleanNamespace s = cleanRest true s.
Proof.
  unfold cleanNamespace.
  pose proof (cleanNamespace_loop_rest (length s) [] s true (le_n _)) as Hloop.
  simpl in Hloop.
  by destruct (fold_left _ _ _) as [[ret nsSize] last].
Qed.

Lemma cleanRest_tidy s last :
  (last = true → Qt.startsWith s slash = false) →
  (∀ p r, s ≠ p ++ slash :: slash :: r) →
  cleanRest last s = s.
Proof.
  revert last. induction s as [|c s IH]; intros last Hhead Hpair; [done|].
  assert (∀ p r, s ≠ p ++ slash :: slash :: r) as Hpair'
    by (intros p r ->; by apply (Hpair (c :: p) r)).
  simpl. case_bool_decide as Hc.
  - destruct last.
    + specialize (Hhead eq_refl). simpl in Hhead.
      by rewrite bool_decide_true in Hhead.
    + f_equal. apply IH; [|done]. intros _.
      destruct s as [|c' s]; [done|]. simpl. apply bool_decide_false.
      intros ->. subst c. by apply (Hpair [] s).
  - f_equal. by apply IH.
Qed.

(** What the pass keeps: the other characters all stay, the result is a
    sublist of the input, and of two characters in a row at most one goes. *)
Lemma cleanRest_keeps (n : nat) :
  ∀ s last,
    (length s <= n)%nat →
    List.filter (fun c => negb (bool_decide (c = slash))) (cleanRest last s)
    = List.filter (fun c => negb (bool_decide (c = slash))) s
    ∧ cleanRest last s `sublist_of` s
    ∧ (length s <= 2 * length (cleanRest last s) + 1)%nat.
Proof.
  induction n as [|n IH]; intros s last Hn.
  - destruct s; [|simpl in Hn; lia].
    repeat split; simpl; [apply sublist_nil_l|lia].
  - destruct s as [|c s]; [repeat split; simpl; [apply sublist_nil_l|lia]|].
    simpl in Hn. cbn [cleanRest].
    case_bool_decide as Hc; [destruct last|].
    + destruct s as [|kept s].
      * subst c. repeat split; simpl;
          first [apply sublist_nil_l | lia | by rewrite ?bool_decide_true].
      * destruct (IH s true) as (Hf & Hs & Hl); [simpl in Hn; lia|].
        repeat split.
        -- cbn [List.filter]. rewrite (bool_decide_true (c = slash)) by done.
           cbn [negb]. by rewrite Hf.
        -- apply sublist_cons. by apply sublist_skip.
        -- simpl. simpl in Hl. lia.
    + destruct (IH s true) as (Hf & Hs & Hl); [lia|].
      repeat split; [cbn [List.filter]; by rewrite Hf|by apply sublist_skip|].
      simpl. lia.
    + destruct (IH s false) as (Hf & Hs & Hl); [lia|].
      repeat split; [cbn [List.filter]; by rewrite Hf|by apply sublist_skip|].
      simpl. lia.
Qed.

End CleanFacts.

(** X1.  [cleanNamespace] leaves a tidy namespace, one without a leading
    slash and without two slashes in a row, as it is. *)
Theorem cleanNamespace_tidy (ns : list ascii) :
  tidy ns → cleanNamespace ns = ns.
Proof.
  intros [Hhead Hpair]. rewrite cleanNamespace_cleanRest.
  by apply cleanRest_tidy.
Qed.

Lemma cleanNamespace_tidy_witness : cleanNamespace (qs "a/b") = qs "a/b".
Proof.
  apply cleanNamespace_tidy. split; [reflexivity|].
  intros p r Heq.
  destruct p as [|c1 [|c2 [|c3 [|c4 p]]]]; discriminate Heq.
Defined.

(** X2.  [cleanNamespace] only takes slashes away: the characters that are
    not slashes all stay, in their order, and the result is a sublist of the
    namespace. *)
Theorem cleanNamespace_removes_slashes_only (ns : list ascii) :
  List.filter (fun c => negb (bool_decide (c = slash))) (cleanNamespace ns)
  = List.filter (fun c => negb (bool_decide (c = slash))) ns
  ∧ cleanNamespace ns `sublist_of` ns.
Proof.
  rewrite cleanNamespace_cleanRest.
  destruct (cleanRest_keeps (length ns) ns true (le_n _)) as (Hf & Hs & _).
  by split.
Qed.

(** X3.  [cleanNamespace] removes at most every other character: the
    character that follows a removed slash is kept whatever it is.  So a
    leading slash goes, the next character stays and the rest is cleaned as
    from the start, and a run of slashes is not reduced to one slash. *)
Theorem cleanNamespace_keeps_every_other (ns : list ascii) :
  (length ns <= 2 * length (cleanNamespace ns) + 1)%nat
  ∧ ∀ c rest, cleanNamespace (slash :: c :: rest) = c :: cleanNamespace rest.
Proof.
  split.
  - rewrite cleanNamespace_cleanRest.
    by destruct (cleanRest_keeps (length ns) ns true (le_n _)) as (_ & _ & Hl).
  - intros c rest. by rewrite !cleanNamespace_cleanRest.
Qed.

(** * What the registration keeps *)

Section RegistrationFacts.

Context {DT : Type} `{DispatchType DT} `{Collaborators DT}.

Implicit Types (d : DispatcherPrivate DT) (a b : Action) (ds : list DT).

(** The two ways a step returns: the action is registered, or only the
    dispatch types may have changed. *)
Lemma registerOne_cases d instanceUsed a l d' used :
  registerOne d instanceUsed a = (l, Ret (d', used)) →
  (actionHash d !! reverse a = None
   ∧ used = true
   ∧ actionHash d' = <[ns a ++ slash :: name a := a]> (actionHash d)
   ∧ containerHash d'
     = <[ns a := containerValue d (ns a) ++ [a]]> (containerHash d))
  ∨ (used = instanceUsed
     ∧ actionHash d' = actionHash d ∧ containerHash d' = containerHash d).
Proof.
  unfold registerOne.
  destruct (actionHash d !! reverse a) as [other|] eqn:Hkey.
  - rewrite bool_decide_true by (by eexists). cbn [negb].
    rewrite with_dispatchers_same.
    destruct (negb (isInternalName (name a))); [intros [= _ <- <-]; auto|].
    destruct (showInternalActions d); [by rewrite Hkey|intros [= _ <- <-]; auto].
  - rewrite bool_decide_false by (by intros [? ?]). cbn [negb].
    assert (∀ ds registered,
      (let d0 := with_dispatchers d ds in
       if registered : bool then
         ([], Ret (with_containerHash
                     (with_actionHash d0
                        (<[ns a ++ slash :: name a := a]> (actionHash d0)))
                     (<[ns a := containerValue
                                  (with_actionHash d0
                                     (<[ns a ++ slash :: name a := a]>
                                        (actionHash d0))) (ns a) ++ [a]]>
                        (containerHash
                           (with_actionHash d0
                              (<[ns a ++ slash :: name a := a]>
                                 (actionHash d0))))), true))
       else if negb (isInternalName (name a)) then
         ([NotRegistered a], Ret (d0, instanceUsed))
       else if showInternalActions d0 then
         match actionHash d0 !! reverse a with
         | Some other => ([AlreadyRegistered a (controller other)], Exit 1)
         | None => ([], Undefined)
         end
       else ([], Ret (d0, instanceUsed))) = (l, Ret (d', used)) →
      ((None : option Action) = None ∧ used = true
       ∧ actionHash d' = <[ns a ++ slash :: name a := a]> (actionHash d)
       ∧ containerHash d'
         = <[ns a := containerValue d (ns a) ++ [a]]> (containerHash d))
      ∨ (used = instanceUsed
         ∧ actionHash d' = actionHash d ∧ containerHash d' = containerHash d))
      as Hgen.
    { intros ds registered. cbv zeta. destruct registered.
      - intros [= _ <- <-]. left. by repeat split.
      - destruct (negb (isInternalName (name a)));
          [intros [= _ <- <-]; right; by repeat split|].
        change (showInternalActions (with_dispatchers d ds))
          with (showInternalActions d).
        destruct (showInternalActions d);
          [|intros [= _ <- <-]; right; by repeat split].
        change (actionHash (with_dispatchers d ds)) with (actionHash d).
        by rewrite Hkey. }
    destruct (negb (bool_decide (qs "Private" ∈ attributes a))).
    + destruct (registerWithAll (dispatchers d) a) as [ds r].
      exact (Hgen ds r).
    + exact (Hgen (dispatchers d) true).
Qed.

Lemma registerOne_consistent d instanceUsed a l d' used :
  reverse_wf a → consistent d →
  registerOne d instanceUsed a = (l, Ret (d', used)) → consistent d'.
Proof.
  intros Hwf [Hreg Hcont] Hone.
  apply registerOne_cases in Hone
    as [(Hkey & _ & Hhash & Hch)|(_ & Hhash & Hch)].
  - rewrite Hwf in Hkey.
    assert (∀ n, containerValue d' n
                 = if decide (ns a = n) then containerValue d (ns a) ++ [a]
                   else containerValue d n) as Hval.
    { intros n. unfold containerValue. rewrite Hch, lookup_insert.
      by destruct (decide (ns a = n)) as [<-|]. }
    split.
    + intros k b. rewrite Hhash, lookup_insert.
      destruct (decide (ns a ++ slash :: name a = k)) as [<-|Hne].
      * intros [= <-]. split; [done|]. rewrite Hval, decide_True by done.
        apply elem_of_app. right. by left.
      * intros Hb. destruct (Hreg k b Hb) as [-> Hin]. split; [done|].
        rewrite Hval. destruct (decide (ns a = ns b)) as [->|]; [|done].
        apply elem_of_app. by left.
    + intros n b. rewrite Hval, Hhash.
      assert (b ∈ containerValue d n →
              ns b = n
              ∧ <[ns a ++ slash :: name a := a]> (actionHash d)
                  !! (n ++ slash :: name b) = Some b) as Hold.
      { intros Hin. destruct (Hcont n b Hin) as [Hns Hb]. split; [done|].
        rewrite lookup_insert_ne; [done|]. intros Heq. congruence. }
      destruct (decide (ns a = n)) as [<-|Hne]; [|done].
      intros [Hin| ->%list_elem_of_singleton]%elem_of_app; [by apply Hold|].
      split; [done|]. apply lookup_insert_eq.
  - split.
    + intros k b. rewrite Hhash. intros Hb.
      destruct (Hreg k b Hb) as [-> Hin]. split; [done|].
      unfold containerValue in *. by rewrite Hch.
    + intros n b. unfold containerValue in *. rewrite Hch, Hhash. apply Hcont.
Qed.

Lemma registerOne_grows d instanceUsed a l d' used :
  registerOne d instanceUsed a = (l, Ret (d', used)) →
  (reverse_wf a → actionHash d ⊆ actionHash d')
  ∧ ∀ n, containerValue d n `prefix_of` containerValue d' n.
Proof.
  intros Hone.
  apply registerOne_cases in Hone
    as [(Hkey & _ & Hhash & Hch)|(_ & Hhash & Hch)].
  - split.
    + intros Hwf. rewrite Hhash. apply insert_subseteq. by rewrite <- Hwf.
    + intros n. unfold containerValue at 2. rewrite Hch, lookup_insert.
      destruct (decide (ns a = n)) as [<-|]; [by eexists|done].
  - split; [by rewrite Hhash|].
    intros n. unfold containerValue. by rewrite Hch.
Qed.

(** An invariant of the states kept by every step that returns is kept by
    the registration of the controllers. *)
Lemma registerControllers_invariant (P : DispatcherPrivate DT → Prop)
    (Q : Action → Prop) cs d l d' :
  (∀ s h, P s → P (with_constrollerHash s h)) →
  (∀ s iu a l' s' used,
     Q a → P s → registerOne s iu a = (l', Ret (s', used)) → P s') →
  (∀ c a, c ∈ cs → a ∈ actions c → Q a) →
  P d → registerControllers cs d = (l, Ret d') → P d'.
Proof.
  intros Hcoh Hstep.
  assert (∀ acts s iu l' s' used,
            (∀ a, a ∈ acts → Q a) → P s →
            registerActions acts s iu = (l', Ret (s', used)) → P s') as Hacts.
  { induction acts as [|a acts IH]; intros s iu l' s' used HQ HP; simpl.
    - by intros [= _ <- _].
    - destruct (registerOne s iu a) as [l1 [[s1 u1]|c|]] eqn:Hone; try done.
      destruct (registerActions acts s1 u1) as [l2 o2] eqn:Hrest.
      intros [= _ ->]. eapply IH; [|eapply Hstep; [|exact HP|exact Hone]|exact Hrest].
      + intros b Hb. apply HQ. by right.
      + apply HQ. by left. }
  revert d l d'. induction cs as [|c cs IH]; intros d l d' HQ HP; simpl.
  - by intros [= _ <-].
  - unfold registerController.
    destruct (registerActions (actions c) d false) as [l1 [[s1 u1]|c'|]] eqn:Hc;
      try done.
    destruct (registerControllers cs _) as [l2 o2] eqn:Hrest.
    intros [= _ ->]. eapply IH; [| |exact Hrest].
    + intros c' a Hc' Ha. apply (HQ c' a); [by right|done].
    + assert (P s1) as Hs1.
      { eapply Hacts; [|exact HP|exact Hc]. intros a Ha. apply (HQ c a); [by left|done]. }
      destruct u1; [by apply Hcoh|done].
Qed.

End RegistrationFacts.

Section RegistrationMore.

Context {DT : Type} `{DispatchType DT} `{Collaborators DT}.

Implicit Types (d : DispatcherPrivate DT) (a b : Action) (ds : list DT).

Lemma registerWithAll_offers ds a :
  Forall2 (fun t t' => t' = fst (dt_registerAction t a))
          ds (fst (registerWithAll ds a)).
Proof.
  induction ds as [|t ds IH]; simpl; [constructor|].
  destruct (dt_registerAction t a) as [t' r] eqn:Ht.
  destruct (registerWithAll ds a) as [ds' r']. constructor; [|done].
  by rewrite Ht.
Qed.



(** The step on an action that gets registered, with the containers. *)
Lemma registerOne_claimed_state d instanceUsed a :
  actionHash d !! reverse a = None → claimed d a →
  ∃ d', registerOne d instanceUsed a = ([], Ret (d', true))
        ∧ actionHash d' = <[ns a ++ slash :: name a := a]> (actionHash d)
        ∧ containerHash d'
          = <[ns a := containerValue d (ns a) ++ [a]]> (containerHash d).
Proof.
  intros Hkey Hcl. unfold registerOne.
  rewrite bool_decide_false by (rewrite Hkey; by intros [? ?]).
  cbn [negb]. destruct Hcl as [Hpriv|Hreg].
  - rewrite bool_decide_true by done. cbn [negb]. eexists. by repeat split.
  - case_bool_decide; cbn [negb]; [eexists; by repeat split|].
    destruct (registerWithAll (dispatchers d) a) as [ds' r].
    simpl in Hreg. subst r. eexists. by repeat split.
Qed.

End RegistrationMore.

(** X4.  An action that gets registered is found afterwards: by
    [getAction] under its name and namespace, when the name is not empty and
    the namespace is tidy, by [getActionByPath] under its key with a slash in
    front, and at the end of the container of its namespace. *)
Theorem registered_action_is_found {DT} `{DispatchType DT}
    (d : DispatcherPrivate DT) (instanceUsed : bool) (a : Action) :
  actionHash d !! reverse a = None → claimed d a →
  name a ≠ [] → tidy (ns a) →
  ∃ d', registerOne d instanceUsed a = ([], Ret (d', true))
        ∧ getAction d' (name a) (ns a) = Some a
        ∧ getActionByPath d' (slash :: ns a ++ slash :: name a) = Some a
        ∧ containerValue d' (ns a) = containerValue d (ns a) ++ [a].
Proof.
  intros Hkey Hcl Hname Htidy.
  destruct (registerOne_claimed_state d instanceUsed a Hkey Hcl)
    as (d' & Hone & Hhash & Hch).
  exists d'. split; [done|].
  repeat split.
  - unfold getAction. destruct (name a) eqn:Hn; [done|]. cbn [Qt.isEmpty].
    rewrite cleanNamespace_tidy, Hhash by done. apply lookup_insert_eq.
  - unfold getActionByPath. cbn [Qt.startsWith].
    rewrite bool_decide_true, remove_first, Hhash by done.
    apply lookup_insert_eq.
  - unfold containerValue at 1. by rewrite Hch, lookup_insert_eq.
Qed.

Lemma registered_action_is_found_witness :
  ∃ d', @registerOne PathType PathType_DispatchType startDispatcher false
          (publicAction "a" "show") = ([], Ret (d', true))
        ∧ getAction d' (qs "show") (qs "a") = Some (publicAction "a" "show")
        ∧ getActionByPath d' (qs "/a/show") = Some (publicAction "a" "show")
        ∧ containerValue d' (qs "a")
          = containerValue startDispatcher (qs "a") ++ [publicAction "a" "show"].
Proof.
  apply (@registered_action_is_found PathType PathType_DispatchType
           startDispatcher false (publicAction "a" "show")).
  - reflexivity.
  - right. reflexivity.
  - discriminate.
  - split; [reflexivity|]. intros p r Heq.
    destruct p as [|c1 [|c2 p]]; discriminate Heq.
Defined.

(** X5.  [getActionByPath] strips exactly one leading slash before it looks
    the path up, and none when there is none.  The key of an action of the
    root namespace begins with a slash, so such an action is found under
    its key only when the path begins with two slashes. *)
Theorem getActionByPath_strips_one_slash {DT} (d : DispatcherPrivate DT)
    (p : list ascii) :
  getActionByPath d (slash :: p) = actionHash d !! p
  ∧ (Qt.startsWith p slash = false → getActionByPath d p = actionHash d !! p)
  ∧ (∀ a, ns a = [] →
          actionHash d !! (ns a ++ slash :: name a) = Some a →
          getActionByPath d (slash :: slash :: name a) = Some a
          ∧ getActionByPath d (slash :: name a) = actionHash d !! name a).
Proof.
  assert (∀ q, getActionByPath d (slash :: q) = actionHash d !! q) as Hstrip.
  { intros q. unfold getActionByPath. cbn [Qt.startsWith].
    by rewrite bool_decide_true, remove_first. }
  split; [apply Hstrip|]. split.
  - intros Hp. unfold getActionByPath. by rewrite Hp.
  - intros a Hns Ha. rewrite Hns in Ha. by rewrite !Hstrip.
Qed.

Lemma getActionByPath_strips_one_slash_witness :
  getActionByPath siblingRegistry (qs "a/sibling")
  = Some (publicAction "a" "sibling")
  ∧ getActionByPath siblingRegistry (qs "//sibling")
    = Some (publicAction EmptyString "sibling")
  ∧ getActionByPath siblingRegistry (qs "/sibling") = None.
Proof.
  split; [|split].
  - transitivity (actionHash siblingRegistry !! qs "a/sibling");
      [|by vm_compute].
    apply (proj1 (proj2 (getActionByPath_strips_one_slash siblingRegistry
                           (qs "a/sibling")))).
    reflexivity.
  - apply (proj2 (proj2 (getActionByPath_strips_one_slash siblingRegistry []))
             (publicAction EmptyString "sibling") eq_refl).
    by vm_compute.
  - transitivity (actionHash siblingRegistry !! qs "sibling");
      [|by vm_compute].
    apply (proj2 (proj2 (getActionByPath_strips_one_slash siblingRegistry []))
             (publicAction EmptyString "sibling") eq_refl).
    by vm_compute.
Defined.

(** X6.  The registration never replaces an entry of the registry: with
    reverse keys derived from namespace and name, every key that was in the
    registry keeps its action, so the first action registered under a key
    stays. *)
Theorem registration_keeps_registry {DT} `{DispatchType DT}
    (d : DispatcherPrivate DT) (cs : list Controller) l d' :
  (∀ c a, c ∈ cs → a ∈ actions c → reverse_wf a) →
  registerControllers cs d = (l, Ret d') →
  actionHash d ⊆ actionHash d'.
Proof.
  intros Hwf Hreg.
  apply (registerControllers_invariant
           (fun s => actionHash d ⊆ actionHash s) reverse_wf cs d l d');
    try done.
  intros s iu a l' s' used Ha Hs Hone.
  destruct (registerOne_grows _ _ _ _ _ _ Hone) as [Hsub _].
  etrans; [exact Hs|by apply Hsub].
Qed.

(** X7.  The registration keeps the registry and the containers in
    agreement, with reverse keys derived from namespace and name: every
    action of the registry is in the container of its namespace and every
    action of a container is the one the registry holds for its namespace
    and name. *)
Theorem registration_keeps_consistency {DT} `{DispatchType DT}
    (d : DispatcherPrivate DT) (cs : list Controller) l d' :
  (∀ c a, c ∈ cs → a ∈ actions c → reverse_wf a) →
  consistent d →
  registerControllers cs d = (l, Ret d') →
  consistent d'.
Proof.
  intros Hwf Hd Hreg.
  apply (registerControllers_invariant consistent reverse_wf cs d l d');
    try done.
  intros s iu a l' s' used Ha Hs Hone. by eapply registerOne_consistent.
Qed.

(** X8.  The registration only appends to the containers: the container of
    every namespace keeps its actions at the front, in their order. *)
Theorem registration_appends_to_containers {DT} `{DispatchType DT}
    (d : DispatcherPrivate DT) (cs : list Controller) l d' :
  registerControllers cs d = (l, Ret d') →
  ∀ n, containerValue d n `prefix_of` containerValue d' n.
Proof.
  intros Hreg.
  apply (registerControllers_invariant
           (fun s => ∀ n, containerValue d n `prefix_of` containerValue s n)
           (fun _ => True) cs d l d'); try done.
  intros s iu a l' s' used _ Hs Hone n.
  destruct (registerOne_grows _ _ _ _ _ _ Hone) as [_ Hpre].
  etrans; [apply Hs|apply Hpre].
Qed.

Lemma consistent_start : consistent startDispatcher.
Proof.
  split.
  - intros k a Hk. cbn [actionHash startDispatcher] in Hk.
    by rewrite lookup_empty in Hk.
  - intros n a Hin. unfold containerValue in Hin.
    cbn [containerHash startDispatcher] in Hin.
    rewrite lookup_empty in Hin. by apply elem_of_nil in Hin.
Qed.

Lemma rootController_wf c a :
  c ∈ [rootController] → a ∈ actions c → reverse_wf a.
Proof.
  intros Hc Ha. apply list_elem_of_singleton in Hc. subst c.
  cbn [actions rootController controllerOf] in Ha.
  repeat (apply elem_of_cons in Ha as [->|Ha]; [reflexivity|]).
  by apply elem_of_nil in Ha.
Qed.

Lemma laterControllers_wf c a :
  c ∈ [fooSecond; rootController] → a ∈ actions c → reverse_wf a.
Proof.
  intros Hc Ha.
  apply elem_of_cons in Hc as [->|Hc];
    [|apply list_elem_of_singleton in Hc; subst c];
    cbn [actions fooSecond rootController controllerOf] in Ha;
    repeat (apply elem_of_cons in Ha as [->|Ha]; [reflexivity|]);
    by apply elem_of_nil in Ha.
Qed.

Lemma registration_keeps_registry_witness :
  let r := @registerControllers PathType PathType_DispatchType
             [fooSecond; rootController] fooDispatcher in
  let d' := stateOf (snd r) fooDispatcher in
  actionHash fooDispatcher !! qs "a/foo"
  = Some (privateAction "a" "foo" "First")
  ∧ actionHash fooDispatcher ⊆ actionHash d'
  ∧ actionHash d' !! qs "a/foo" = Some (privateAction "a" "foo" "First")
  ∧ size (actionHash d') = 4%nat.
Proof.
  intros r d'.
  assert (actionHash fooDispatcher ⊆ actionHash d') as Hsub.
  { apply (@registration_keeps_registry PathType PathType_DispatchType
             fooDispatcher [fooSecond; rootController] (fst r)).
    - apply laterControllers_wf.
    - vm_compute. reflexivity. }
  split; [by vm_compute|]. split; [exact Hsub|]. split; [|by vm_compute].
  eapply lookup_weaken; [|exact Hsub]. by vm_compute.
Defined.

Lemma registration_keeps_consistency_witness :
  let r := @registerControllers PathType PathType_DispatchType
             [rootController] startDispatcher in
  consistent (stateOf (snd r) startDispatcher).
Proof.
  intros r.
  apply (@registration_keeps_consistency PathType PathType_DispatchType
           startDispatcher [rootController] (fst r)).
  - apply rootController_wf.
  - apply consistent_start.
  - vm_compute. reflexivity.
Defined.

Lemma registration_appends_to_containers_witness :
  let r := @registerControllers PathType PathType_DispatchType
             [fooSecond; rootController] fooDispatcher in
  let d' := stateOf (snd r) fooDispatcher in
  containerValue fooDispatcher (qs "a") = [privateAction "a" "foo" "First"]
  ∧ containerValue fooDispatcher (qs "a") `prefix_of` containerValue d' (qs "a")
  ∧ containerValue d' (qs "a")
    = [privateAction "a" "foo" "First"; publicAction "a" "show"].
Proof.
  intros r d'.
  split; [by vm_compute|]. split; [|by vm_compute].
  refine (@registration_appends_to_containers PathType PathType_DispatchType
            fooDispatcher [fooSecond; rootController] (fst r) _ _ (qs "a")).
  vm_compute. reflexivity.
Defined.

Section DispatchTypesFacts.

Context {DT : Type} `{DispatchType DT} `{Collaborators DT}.

Implicit Types (d : DispatcherPrivate DT) (a b : Action) (ds : list DT).

Lemma registerWithAll_length ds a :
  length (fst (registerWithAll ds a)) = length ds.
Proof.
  pose proof (registerWithAll_offers ds a) as Hall.
  by apply Forall2_length in Hall.
Qed.

Lemma registerControllers_dispatchers_length cs d l d' :
  registerControllers cs d = (l, Ret d') →
  length (dispatchers d') = length (dispatchers d).
Proof.
  intros Hreg.
  apply (registerControllers_invariant
           (fun s => length (dispatchers s) = length (dispatchers d))
           (fun _ => True) cs d l d'); try done.
  intros s iu a l' s' used _ Hs Hone.
  apply registerOne_shape in Hone as (_ & [->| ->] & _); [done|].
  by rewrite registerWithAll_length.
Qed.

End DispatchTypesFacts.

(** X9.  After [setupActions] every dispatch type that is left is in use;
    when the notified controllers leave the dispatcher alone, the set-up adds
    no dispatch type. *)
Theorem setupActions_keeps_used_types {DT} `{DispatchType DT} `{Collaborators DT}
    (d : DispatcherPrivate DT) (cs : list Controller) l d' :
  setupActions d cs = (l, Ret d') →
  Forall (fun t => dt_inUse t = true) (dispatchers d')
  ∧ ((∀ c s, setupFinished c s = s) →
     (length (dispatchers d') <= length (dispatchers d))%nat).
Proof.
  unfold setupActions.
  destruct (registerControllers cs d) as [l1 [d1|c|]] eqn:Hreg;
    intros [= _ <-].
  split.
  - unfold dropUnused. cbn [dispatchers with_dispatchers].
    apply Forall_forall. by intros t [Ht _]%list_elem_of_filter.
  - intros Hquiet. rewrite notifyControllers_quiet by done.
    unfold dropUnused. cbn [dispatchers with_dispatchers cacheRootActions
                              with_rootActions].
    rewrite <- (registerControllers_dispatchers_length _ _ _ _ Hreg).
    apply length_filter.
Qed.

Lemma setupActions_keeps_used_types_witness :
  let r := @setupActions PathType PathType_DispatchType
             (quietCollaborators PathType) startDispatcher [rootController] in
  Forall (fun t => dt_inUse t = true)
         (dispatchers (stateOf (snd r) startDispatcher))
  ∧ ((∀ c s, @setupFinished PathType (quietCollaborators PathType) c s = s) →
     (length (dispatchers (stateOf (snd r) startDispatcher))
      <= length (dispatchers startDispatcher))%nat).
Proof.
  intros r.
  apply (@setupActions_keeps_used_types PathType PathType_DispatchType
           (quietCollaborators PathType) startDispatcher [rootController]
           (fst r)).
  vm_compute. reflexivity.
Defined.

(** X10.  A private action and an action whose reverse key is in the
    registry are never offered to a dispatch type: the step leaves the
    dispatch types as they are.  Any other action is offered to every
    dispatch type, also after one of them has claimed it. *)
Theorem registerOne_offers {DT} `{DispatchType DT}
    (d : DispatcherPrivate DT) (instanceUsed : bool) (a : Action) l d' used :
  registerOne d instanceUsed a = (l, Ret (d', used)) →
  (qs "Private" ∈ attributes a ∨ is_Some (actionHash d !! reverse a) →
   dispatchers d' = dispatchers d)
  ∧ (qs "Private" ∉ attributes a → actionHash d !! reverse a = None →
     Forall2 (fun t t' => t' = fst (dt_registerAction t a))
             (dispatchers d) (dispatchers d')).
Proof.
  intros Hone. split.
  - intros Hor. revert Hone. unfold registerOne.
    destruct (bool_decide (is_Some (actionHash d !! reverse a))) eqn:Hkey;
      cbn [negb].
    + rewrite with_dispatchers_same.
      destruct (negb (isInternalName (name a))); [by intros [= _ <- _]|].
      destruct (showInternalActions d); [|by intros [= _ <- _]].
      by destruct (actionHash d !! reverse a).
    + destruct Hor as [Hpriv|Hsome];
        [|by apply bool_decide_eq_false in Hkey].
      rewrite bool_decide_true by done. cbn [negb].
      by intros [= _ <- _].
  - intros Hpub Hkey. revert Hone. unfold registerOne.
    rewrite bool_decide_false by (rewrite Hkey; by intros [? ?]).
    rewrite bool_decide_false by done. cbn [negb].
    pose proof (registerWithAll_offers (dispatchers d) a) as Hall.
    destruct (registerWithAll (dispatchers d) a) as [ds r]. cbn [fst] in Hall.
    destruct r; [by intros [= _ <- _]|].
    destruct (negb (isInternalName (name a))); [by intros [= _ <- _]|].
    change (showInternalActions (with_dispatchers d ds))
      with (showInternalActions d).
    destruct (showInternalActions d); [|by intros [= _ <- _]].
    change (actionHash (with_dispatchers d ds)) with (actionHash d).
    by rewrite Hkey.
Qed.

Lemma registerOne_offers_witness :
  let r := @registerOne PathType PathType_DispatchType startDispatcher false
             (privateAction "a" "_BEGIN" "Root") in
  dispatchers (fst (stateOf (snd r) (startDispatcher, false)))
  = dispatchers startDispatcher.
Proof.
  intros r.
  apply (proj1 (@registerOne_offers PathType PathType_DispatchType
                  startDispatcher false (privateAction "a" "_BEGIN" "Root")
                  (fst r) (fst (stateOf (snd r) (startDispatcher, false)))
                  (snd (stateOf (snd r) (startDispatcher, false)))
                  ltac:(vm_compute; reflexivity))).
  left. apply (bool_decide_unpack _). by vm_compute.
Defined.



(** * More on forwarding, dispatch and path resolution *)

Section ForwardMore.

Context {DT : Type} `{DispatchType DT} `{Collaborators DT}.

Implicit Types (d : DispatcherPrivate DT) (p nm : list ascii).

(** An absolute name is resolved without a look at the stack. *)
Lemma invokeAsPath_absolute_split d ctx p nm args :
  slash ∉ nm →
  invokeAsPath d ctx (slash :: p ++ slash :: nm) args = Ret (getAction d nm p).
Proof.
  intros Hnm. unfold invokeAsPath, actionRel2Abs. cbn [Qt.startsWith].
  rewrite bool_decide_true by done. cbn [negb bindO Qt.startsWith].
  rewrite bool_decide_true by done. rewrite remove_first.
  rewrite lastIndexOf_default_found by done.
  rewrite invokeAsPath_loop_split; [done|].
  unfold Qt.size. rewrite length_app. simpl. lia.
Qed.

Lemma invokeAsPath_absolute_whole d ctx nm args :
  slash ∉ nm →
  invokeAsPath d ctx (slash :: nm) args = Ret (getAction d nm []).
Proof.
  intros Hnm. unfold invokeAsPath, actionRel2Abs. cbn [Qt.startsWith].
  rewrite bool_decide_true by done. cbn [negb bindO Qt.startsWith].
  rewrite bool_decide_true by done. rewrite remove_first.
  rewrite lastIndexOf_default_none by done.
  by rewrite invokeAsPath_loop_whole.
Qed.

End ForwardMore.

(** X12.  [command2Action] first takes the command as a key of the registry
    and returns that action without a look at the stack.  Without such a
    key, a command that begins with a slash is resolved at its rightmost
    slash, again without the stack; a command that does not begin with a
    slash needs the executing action, and with an empty stack the behaviour
    is undefined. *)
Theorem command2Action_resolution {DT} (d : DispatcherPrivate DT)
    (ctx : Context) (command : list ascii) :
  (∀ a, actionHash d !! command = Some a →
        command2Action d ctx command = Ret (Some a))
  ∧ (∀ p nm, command = slash :: p ++ slash :: nm → slash ∉ nm →
             actionHash d !! command = None →
             command2Action d ctx command = Ret (getAction d nm p))
  ∧ (∀ nm, command = slash :: nm → slash ∉ nm →
           actionHash d !! command = None →
           command2Action d ctx command = Ret (getAction d nm []))
  ∧ (actionHash d !! command = None →
     Qt.startsWith command slash = false → stack ctx = [] →
     command2Action d ctx command = Undefined).
Proof.
  unfold command2Action. repeat split.
  - by intros a ->.
  - intros p nm -> Hnm ->. by apply invokeAsPath_absolute_split.
  - intros nm -> Hnm ->. by apply invokeAsPath_absolute_whole.
  - intros -> Hrel Hstack. unfold invokeAsPath, actionRel2Abs.
    by rewrite Hrel, Hstack.
Qed.

Lemma command2Action_resolution_witness :
  command2Action siblingRegistry (freshContext EmptyString) (qs "a/sibling")
  = Ret (Some (publicAction "a" "sibling"))
  ∧ command2Action siblingRegistry (freshContext EmptyString) (qs "/a/sibling")
    = Ret (getAction siblingRegistry (qs "sibling") (qs "a"))
  ∧ command2Action siblingRegistry (freshContext EmptyString) (qs "sibling")
    = Undefined.
Proof.
  split; [|split].
  - apply (proj1 (command2Action_resolution siblingRegistry
                    (freshContext EmptyString) (qs "a/sibling"))).
    by vm_compute.
  - apply (proj1 (proj2 (command2Action_resolution siblingRegistry
                           (freshContext EmptyString) (qs "/a/sibling")))
             (qs "a") (qs "sibling")); [reflexivity| |by vm_compute].
    apply (bool_decide_unpack _). by vm_compute.
  - apply (proj2 (proj2 (proj2 (command2Action_resolution siblingRegistry
                                  (freshContext EmptyString) (qs "sibling")))));
      [by vm_compute|reflexivity|reflexivity].
Defined.

(** X13.  [dispatch] on a context with a resolved action runs the action
    [_DISPATCH] of the namespace of that action: the one under the key
    [/namespace/_DISPATCH] when there is such a key, the one [getAction]
    finds for the namespace otherwise; without either it returns [false] and
    leaves the context as it is.  It never depends on the stack. *)
Theorem dispatch_runs_DISPATCH {DT} `{Collaborators DT}
    (d : DispatcherPrivate DT) (ctx : Context) (a : Action) :
  action ctx = Some a →
  dispatch d ctx
  = Ret (match actionHash d !! (slash :: ns a ++ qs "/_DISPATCH") with
         | Some x => action_dispatch x ctx
         | None =>
             match getAction d (qs "_DISPATCH") (ns a) with
             | Some x => action_dispatch x ctx
             | None => (false, ctx)
             end
         end).
Proof.
  intros Hact. unfold dispatch, forward. rewrite Hact.
  destruct (command2Action_resolution d ctx (slash :: ns a ++ qs "/_DISPATCH"))
    as (Hkey & Hsplit & _).
  destruct (actionHash d !! (slash :: ns a ++ qs "/_DISPATCH")) as [x|] eqn:Hx.
  - by rewrite (Hkey x eq_refl).
  - rewrite (Hsplit (ns a) (qs "_DISPATCH")); [|done| |done].
    + by destruct (getAction d (qs "_DISPATCH") (ns a)).
    + apply (bool_decide_unpack _). by vm_compute.
Qed.

Lemma dispatch_runs_DISPATCH_witness :
  @dispatch PathType (quietCollaborators PathType)
    siblingRegistry
    (resolved (freshContext "a/x") (publicAction "a" "x") (qs "a/x") [])
  = Ret (false, resolved (freshContext "a/x") (publicAction "a" "x") (qs "a/x") []).
Proof.
  rewrite (@dispatch_runs_DISPATCH PathType
             (quietCollaborators PathType) siblingRegistry
             (resolved (freshContext "a/x") (publicAction "a" "x") (qs "a/x") [])
             (publicAction "a" "x") eq_refl).
  by vm_compute.
Defined.

Section ResolutionMore.

Context {DT : Type} `{DispatchType DT} `{Collaborators DT}.

Lemma split_no_sep_id c (e : list ascii) : c ∉ e → Qt.split c e = [e].
Proof.
  induction e as [|x e IH]; intros He; [done|]. simpl.
  rewrite bool_decide_false by (intros ->; apply He; left).
  rewrite IH; [done|]. intros Hin. apply He. by right.
Qed.

Lemma split_snoc c (s e : list ascii) :
  c ∉ e → Qt.split c (s ++ c :: e) = Qt.split c s ++ [e].
Proof.
  intros He. induction s as [|x s IH]; simpl.
  - rewrite bool_decide_true by done. by rewrite split_no_sep_id.
  - case_bool_decide; [by rewrite IH|].
    rewrite IH. destruct (Qt.split c s) as [|h t] eqn:Hs; [|done].
    by apply split_nonempty in Hs.
Qed.

Lemma split_extras c (base : list ascii) (extras : list (list ascii)) :
  Forall (fun s => c ∉ s) extras →
  Qt.split c (base ++ flat_map (fun s => c :: s) extras)
  = Qt.split c base ++ extras.
Proof.
  induction extras as [|e extras IH] using rev_ind; intros Hall.
  - by rewrite !app_nil_r.
  - apply Forall_app in Hall as [Hall He]. apply Forall_cons in He as [He _].
    rewrite flat_map_app. simpl. rewrite app_nil_r, !app_assoc.
    rewrite split_snoc by done. by rewrite IH, <- app_assoc.
Qed.

Lemma join_extras c (l : list (list ascii)) (extras : list (list ascii)) :
  l ≠ [] →
  Qt.join c (l ++ extras) = Qt.join c l ++ flat_map (fun s => c :: s) extras.
Proof.
  intros Hl. induction extras as [|e extras IH] using rev_ind.
  - by rewrite !app_nil_r.
  - rewrite app_assoc, join_snoc by (by destruct l).
    rewrite IH, flat_map_app. simpl. by rewrite app_nil_r, <- app_assoc.
Qed.

Lemma resolve_spec_match (ds : list DT) rsegs args ctx ctx' :
  offer ds ctx (Qt.join slash (rev rsegs)) args = (true, ctx') →
  resolve_spec ds rsegs args ctx = ctx'.
Proof. intros Hoff. destruct rsegs; simpl in *; by rewrite Hoff. Qed.

Lemma resolve_spec_step (ds : list DT) seg rsegs args ctx ctx' :
  offer ds ctx (Qt.join slash (rev (seg :: rsegs))) args = (false, ctx') →
  Qt.isEmpty (Qt.join slash (rev (seg :: rsegs))) = false →
  resolve_spec ds (seg :: rsegs) args ctx
  = resolve_spec ds rsegs (fromPercentEncoding seg :: args) ctx'.
Proof. intros Hoff Hne. cbn [resolve_spec]. by rewrite Hoff, Hne. Qed.

Lemma resolve_spec_extras (ds : list DT) ctx a (base : list ascii) rb :
  rb ≠ [] → Qt.join slash (rev rb) = base →
  (∀ args, offer ds ctx base args = (true, resolved ctx a base args)) →
  (∀ more args, offer ds ctx (base ++ slash :: more) args = (false, ctx)) →
  ∀ re args,
    resolve_spec ds (re ++ rb) args ctx
    = resolved ctx a base (map fromPercentEncoding (rev re) ++ args).
Proof.
  intros Hrb Hbase Hlit Hlonger.
  assert (rev rb ≠ []) as Hrev
    by (intros Hnil; apply Hrb; by rewrite <- (rev_involutive rb), Hnil).
  induction re as [|e re IH]; intros args.
  - simpl. apply resolve_spec_match. by rewrite Hbase.
  - assert (∃ more, Qt.join slash (rev ((e :: re) ++ rb)) = base ++ slash :: more)
      as [more Hcand].
    { rewrite rev_app_distr, join_extras, Hbase by done.
      simpl. destruct (rev re) as [|x l]; simpl; eauto. }
    change ((e :: re) ++ rb) with (e :: (re ++ rb)) in *.
    rewrite (resolve_spec_step _ _ _ _ _ ctx).
    + rewrite IH. simpl. by rewrite map_app, <- app_assoc.
    + by rewrite Hcand.
    + rewrite Hcand. by destruct base.
Qed.

End ResolutionMore.

(** X14.  With dispatch types that match the path [base] and nothing below
    it, the request [base/s1/.../sn] resolves to the action of [base] with
    the decoded segments [s1 ... sn] as arguments, in the order of the
    path, whatever their number. *)
Theorem prepareAction_extra_segments {DT} `{DispatchType DT} `{Collaborators DT}
    (d : DispatcherPrivate DT) (ctx : Context) (a : Action)
    (base : list ascii) (extras : list (list ascii)) :
  path (req ctx) = base ++ flat_map (fun s => slash :: s) extras →
  Forall (fun s => slash ∉ s) extras →
  (∀ args, offer (dispatchers d) ctx base args
           = (true, resolved ctx a base args)) →
  (∀ more args, offer (dispatchers d) ctx (base ++ slash :: more) args
                = (false, ctx)) →
  prepareAction d ctx
  = Ret (resolved ctx a base (map fromPercentEncoding extras)).
Proof.
  intros Hpath Hextras Hlit Hlonger.
  rewrite prepareAction_refines. unfold prepareAction_spec. f_equal.
  rewrite Hpath, split_extras, rev_app_distr by done.
  rewrite (resolve_spec_extras (dispatchers d) ctx a base
             (rev (Qt.split slash base))); try done.
  - by rewrite rev_involutive, app_nil_r.
  - intros Hnil. apply (split_nonempty slash base).
    by rewrite <- (rev_involutive (Qt.split slash base)), Hnil.
  - by rewrite rev_involutive, join_split.
Qed.

Lemma prepareAction_extra_segments_witness :
  @prepareAction PathType PathType_DispatchType (quietCollaborators PathType)
    literalDispatcher (freshContext "a/b/x%41/y/z")
  = Ret (resolved (freshContext "a/b/x%41/y/z") (publicAction "a" "b")
           (qs "a/b") [qs "xA"; qs "y"; qs "z"]).
Proof.
  apply (@prepareAction_extra_segments PathType PathType_DispatchType
           (quietCollaborators PathType) literalDispatcher
           (freshContext "a/b/x%41/y/z") (publicAction "a" "b") (qs "a/b")
           [qs "x%41"; qs "y"; qs "z"]).
  - reflexivity.
  - repeat constructor; apply (bool_decide_unpack _); by vm_compute.
  - intros args. reflexivity.
  - intros more args.
    cbn [dispatchers literalDispatcher offer dt_match PathType_DispatchType].
    change (Qt.startsWith (qs "a/b" ++ slash :: more) slash) with false.
    cbv iota. rewrite literalPaths_below_ab. reflexivity.
Defined.

(** X15.  For the root namespace, written as the empty string or as a
    single slash, [getContainers] returns the cached root actions alone; for
    a namespace of one segment it returns the container of that namespace
    followed by the cached root actions. *)
Theorem getContainers_flat_namespace {DT} (d : DispatcherPrivate DT) :
  getContainers d [] = rootActions d
  ∧ getContainers d (qs "/") = rootActions d
  ∧ ∀ ns : list ascii, ns ≠ [] → slash ∉ ns →
      getContainers d ns = containerValue d ns ++ rootActions d.
Proof.
  split; [done|]. split; [done|].
  intros ns Hne Hns. rewrite getContainers_walk. f_equal.
  unfold nsWalk. rewrite bool_decide_true
    by (intros ->; apply Hns; by left).
  destruct ns as [|c ns]; [done|]. cbn [length nsWalk_loop].
  destruct (Z.ltb_spec 0 (Qt.size (c :: ns))) as [_|Hle];
    [|unfold Qt.size in Hle; simpl in Hle; lia].
  pose proof (mid_prefix (c :: ns) []) as Hmid. rewrite app_nil_r in Hmid.
  rewrite Hmid.
  pose proof (lastIndexOf_none slash (c :: ns) [] (Qt.size (c :: ns) - 1) Hns)
    as Hlast.
  rewrite app_nil_r in Hlast. rewrite Hlast
    by (unfold Qt.size; simpl; lia).
  destruct (length ns); simpl; by rewrite app_nil_r.
Qed.

Lemma getContainers_flat_namespace_witness :
  getContainers showRegistry (qs "a")
  = containerValue showRegistry (qs "a") ++ rootActions showRegistry.
Proof.
  apply (proj2 (proj2 (getContainers_flat_namespace showRegistry))).
  - discriminate.
  - apply (bool_decide_unpack _). by vm_compute.
Defined.

(** X16.  [getActions] with a name that is not empty returns exactly the
    actions of that name among those of [getContainers] for the cleaned
    namespace. *)
Theorem getActions_membership {DT} (d : DispatcherPrivate DT)
    (c : ascii) (nm nameSpace : list ascii) (a : Action) :
  a ∈ getActions d (c :: nm) nameSpace
  ↔ actionName a = c :: nm ∧ a ∈ getContainers d (cleanNamespace nameSpace).
Proof.
  unfold getActions. cbn [Qt.isEmpty].
  rewrite fold_left_prepend, app_nil_r.
  rewrite !list_elem_of_In, <- in_rev, filter_In.
  rewrite bool_decide_eq_true. tauto.
Qed.

Lemma uriForAction_not_empty {DT} `{DispatchType DT}
    (d : DispatcherPrivate DT) (a : Action) (caps : list (list ascii)) :
  uriForAction d a caps ≠ Some [].
Proof.
  unfold uriForAction. rewrite uriForAction_loop_spec.
  destruct (omap _ _) as [|uri ?]; [done|].
  by destruct uri.
Qed.

(** X17.  [uriForAction] never returns an empty string: its result is the
    null string or a string with at least one character. *)
Theorem uriForAction_never_empty {DT} `{DispatchType DT}
    (d : DispatcherPrivate DT) (a : Action) (caps : list (list ascii)) :
  uriForAction d a caps = None
  ∨ ∃ c s, uriForAction d a caps = Some (c :: s).
Proof.
  pose proof (uriForAction_not_empty d a caps) as Hne.
  destruct (uriForAction d a caps) as [[|c s]|]; [done|right; eauto|by left].
Qed.

(** * The htpasswd store *)

Section HtpasswdFacts.

Implicit Types (s t u p line rest content : list ascii).

Lemma readLineData_fileLines c s :
  ∃ line rest,
    Htpasswd.readLineData (c :: s) = (line, rest)
    ∧ c :: s = line ++ rest
    ∧ Htpasswd.fileLines (c :: s) = line :: Htpasswd.fileLines rest
    ∧ (length rest <= length s)%nat.
Proof.
  revert c. induction s as [|c' s IH]; intros c.
  - simpl. case_bool_decide; eexists _, _; repeat split; simpl; lia.
  - destruct (IH c') as (line & rest & Hread & Happ & Hlines & Hlen).
    change (Htpasswd.readLineData (c :: c' :: s))
      with (if bool_decide (c = Htpasswd.newline) then ([c], c' :: s)
            else let '(line, rest') := Htpasswd.readLineData (c' :: s) in
                 (c :: line, rest')).
    change (Htpasswd.fileLines (c :: c' :: s))
      with (if bool_decide (c = Htpasswd.newline)
            then [c] :: Htpasswd.fileLines (c' :: s)
            else match Htpasswd.fileLines (c' :: s) with
                 | [] => [[c]]
                 | line :: lines => (c :: line) :: lines
                 end).
    case_bool_decide as Hc.
    + eexists _, _. repeat split. simpl. lia.
    + rewrite Hread, Hlines. eexists _, _. repeat split; [|simpl; lia].
      by rewrite Happ.
Qed.

(** [readLine] returns the next line of the file in text mode. *)
Lemma readLine_fileLines c s :
  ∃ line rest,
    Htpasswd.readLine (c :: s) = (Htpasswd.textLine line, rest)
    ∧ c :: s = line ++ rest
    ∧ Htpasswd.fileLines (c :: s) = line :: Htpasswd.fileLines rest
    ∧ (length rest <= length s)%nat.
Proof.
  destruct (readLineData_fileLines c s)
    as (line & rest & Hread & Happ & Hlines & Hlen).
  exists line, rest. unfold Htpasswd.readLine. by rewrite Hread.
Qed.

Lemma concat_fileLines s : concat (Htpasswd.fileLines s) = s.
Proof.
  induction s as [|c s IH]; [done|]. simpl. case_bool_decide.
  - simpl. by rewrite IH.
  - destruct (Htpasswd.fileLines s) as [|l ls]; simpl in *; by rewrite <- IH.
Qed.

(** The text mode changes the line end only. *)
Lemma textLine_cases line :
  Htpasswd.textLine line = line
  ∨ ∃ b, line = b ++ [Htpasswd.cr; Htpasswd.newline]
         ∧ Htpasswd.textLine line = b ++ [Htpasswd.newline].
Proof.
  induction line as [|c rest IH]; [by left|]. simpl.
  destruct (bool_decide (c = Htpasswd.cr)
            && bool_decide (rest = [Htpasswd.newline])) eqn:Hend.
  - apply andb_prop in Hend as [->%bool_decide_eq_true ->%bool_decide_eq_true].
    right. by exists [].
  - destruct IH as [->|(b & -> & ->)]; [by left|right; by exists (c :: b)].
Qed.

Lemma textLine_no_cr line :
  Htpasswd.cr ∉ line → Htpasswd.textLine line = line.
Proof.
  intros Hcr. destruct (textLine_cases line) as [?|(b & -> & _)]; [done|].
  exfalso. apply Hcr. rewrite elem_of_app, elem_of_cons. right. by left.
Qed.

Lemma textContent_no_cr s :
  Htpasswd.cr ∉ s → Htpasswd.textContent s = s.
Proof.
  intros Hcr. unfold Htpasswd.textContent.
  rewrite <- (concat_fileLines s) at 2. f_equal.
  rewrite <- (map_id (Htpasswd.fileLines s)) at 2.
  apply map_ext_in. intros l Hl. apply textLine_no_cr.
  intros Hin. apply Hcr. rewrite <- (concat_fileLines s).
  apply list_elem_of_In, in_concat. exists l.
  split; [done|by apply list_elem_of_In].
Qed.

Lemma split_app_no_sep c b t :
  c ∉ t →
  ∃ pre x, Qt.split c b = pre ++ [x] ∧ Qt.split c (b ++ t) = pre ++ [x ++ t].
Proof.
  intros Ht. induction b as [|y b (pre & x & Hb & Hbt)].
  - exists [], []. split; [done|]. simpl. by apply split_no_sep_id.
  - cbn [Qt.split app]. rewrite Hb, Hbt. case_bool_decide.
    + by exists ([] :: pre), x.
    + destruct pre as [|h pre]; [by exists [], (y :: x)|].
      by exists ((y :: h) :: pre), x.
Qed.

Lemma addMatches_app u b t :
  Htpasswd.colon ∉ t →
  Htpasswd.addMatches u (b ++ t) = Htpasswd.addMatches u b.
Proof.
  intros Ht. unfold Htpasswd.addMatches.
  destruct (split_app_no_sep Htpasswd.colon b t Ht) as (pre & x & -> & ->).
  by destruct pre as [|h pre]; [|rewrite !length_app].
Qed.

Lemma addMatches_textLine u line :
  Htpasswd.addMatches u (Htpasswd.textLine line) = Htpasswd.addMatches u line.
Proof.
  destruct (textLine_cases line) as [->|(b & -> & ->)]; [done|].
  rewrite !addMatches_app; [done|..];
    apply (bool_decide_unpack _); by vm_compute.
Qed.

Lemma dropSpaces_spaces_app a s :
  Forall (fun c => Htpasswd.isSpace c = true) a →
  Htpasswd.dropSpaces (a ++ s) = Htpasswd.dropSpaces s.
Proof. induction 1 as [|c a Hc _ IH]; [done|]. simpl. by rewrite Hc. Qed.

Lemma dropSpaces_app_spaces s t :
  Forall (fun c => Htpasswd.isSpace c = true) t →
  Htpasswd.dropSpaces (s ++ t)
  = match Htpasswd.dropSpaces s with
    | [] => []
    | c :: s' => (c :: s') ++ t
    end.
Proof.
  intros Ht. induction s as [|c s IH].
  - simpl. rewrite <- (app_nil_r t). by rewrite dropSpaces_spaces_app.
  - simpl. by destruct (Htpasswd.isSpace c).
Qed.

Lemma trimmed_app_spaces s t :
  Forall (fun c => Htpasswd.isSpace c = true) t →
  Htpasswd.trimmed (s ++ t) = Htpasswd.trimmed s.
Proof.
  intros Ht. unfold Htpasswd.trimmed. rewrite dropSpaces_app_spaces by done.
  destruct (Htpasswd.dropSpaces s) as [|c s']; [done|].
  rewrite rev_app_distr, dropSpaces_spaces_app; [done|].
  by apply Forall_rev.
Qed.

Lemma trimmed_textLine line :
  Htpasswd.trimmed (Htpasswd.textLine line) = Htpasswd.trimmed line.
Proof.
  destruct (textLine_cases line) as [->|(b & -> & ->)]; [done|].
  rewrite !trimmed_app_spaces; [done|..]; by repeat constructor.
Qed.

Lemma findMatches_textLine u line :
  Htpasswd.findMatches u (Htpasswd.textLine line)
  = Htpasswd.findMatches u line.
Proof. unfold Htpasswd.findMatches. by rewrite trimmed_textLine. Qed.


(** The loop of [addUser] once the entry is written, or when no line
    matches: the rest of the file is copied, as it is read. *)
Lemma addUser_loop_copy fuel content u p wrote tmp :
  (length content <= fuel)%nat →
  wrote = true
  ∨ Forall (fun l => Htpasswd.addMatches u l = false)
           (Htpasswd.fileLines content) →
  Htpasswd.addUser_loop fuel content u p wrote tmp
  = (wrote, tmp ++ Htpasswd.textContent content).
Proof.
  revert content wrote tmp.
  induction fuel as [|fuel IH]; intros content wrote tmp Hfuel Hno.
  - destruct content; [|simpl in Hfuel; lia]. simpl. by rewrite app_nil_r.
  - destruct content as [|c s]; [simpl; by rewrite app_nil_r|].
    destruct (readLine_fileLines c s) as (line & rest & Hread & Happ & Hlines & Hlen).
    cbn [Htpasswd.addUser_loop Qt.isEmpty]. rewrite Hread.
    assert (negb wrote
            && Htpasswd.addMatches u (Htpasswd.textLine line) = false) as ->.
    { destruct Hno as [->|Hall]; [done|].
      rewrite Hlines in Hall. apply Forall_cons in Hall as [Hl _].
      rewrite addMatches_textLine, Hl. by destruct wrote. }
    rewrite IH; [|simpl in Hfuel; lia|].
    + unfold Htpasswd.textContent. rewrite Hlines. simpl.
      by rewrite <- app_assoc.
    + destruct Hno as [?|Hall]; [by left|right].
      rewrite Hlines in Hall. by apply Forall_cons in Hall as [_ ?].
Qed.

(** The loop of [addUser] up to the first line that matches. *)
Lemma addUser_loop_replace fuel content u p tmp l1 m l2 :
  (length content <= fuel)%nat →
  Htpasswd.fileLines content = l1 ++ m :: l2 →
  Forall (fun l => Htpasswd.addMatches u l = false) l1 →
  Htpasswd.addMatches u m = true →
  Htpasswd.addUser_loop fuel content u p false tmp
  = (true, tmp ++ concat (map Htpasswd.textLine l1)
             ++ Htpasswd.entryLine u (Htpasswd.replace Htpasswd.colon
                                        Htpasswd.comma p)
             ++ concat (map Htpasswd.textLine l2)).
Proof.
  revert content tmp l1.
  induction fuel as [|fuel IH]; intros content tmp l1 Hfuel Hlines Hl1 Hm.
  - destruct content; [|simpl in Hfuel; lia]. by destruct l1.
  - destruct content as [|c s]; [by destruct l1|].
    destruct (readLine_fileLines c s) as (line & rest & Hread & Happ & Hls & Hlen).
    cbn [Htpasswd.addUser_loop Qt.isEmpty]. rewrite Hread.
    rewrite addMatches_textLine.
    rewrite Hls in Hlines. destruct l1 as [|l l1].
    + injection Hlines as -> Hrest. rewrite Hm. cbn [negb andb].
      rewrite addUser_loop_copy; [|simpl in Hfuel; lia|by left].
      unfold Htpasswd.textContent. simpl. rewrite <- Hrest.
      by rewrite <- !app_assoc.
    + injection Hlines as -> Hrest. apply Forall_cons in Hl1 as [Hl Hl1].
      rewrite Hl. cbn [negb andb].
      rewrite (IH rest _ l1); [|simpl in Hfuel; lia|done..].
      simpl. by rewrite <- !app_assoc.
Qed.

Lemma findUser_loop_skip fuel content u :
  (length content <= fuel)%nat →
  Forall (fun l => Htpasswd.findMatches u l = false)
         (Htpasswd.fileLines content) →
  Htpasswd.findUser_loop fuel content u = Htpasswd.nullUser.
Proof.
  revert content. induction fuel as [|fuel IH]; intros content Hfuel Hno;
    [done|].
  destruct content as [|c s]; [done|].
  destruct (readLine_fileLines c s) as (line & rest & Hread & Happ & Hls & Hlen).
  cbn [Htpasswd.findUser_loop Qt.isEmpty]. rewrite Hread.
  rewrite findMatches_textLine.
  rewrite Hls in Hno. apply Forall_cons in Hno as [-> Hno].
  apply IH; [simpl in Hfuel; lia|done].
Qed.


(** The loops never run out of turns. *)
Lemma addUser_loop_lines fuel1 fuel2 content u p wrote tmp :
  (length content <= fuel1)%nat → (length content <= fuel2)%nat →
  Htpasswd.addUser_loop fuel1 content u p wrote tmp
  = Htpasswd.addUser_loop fuel2 content u p wrote tmp.
Proof.
  revert fuel2 content wrote tmp.
  induction fuel1 as [|fuel1 IH]; intros fuel2 content wrote tmp H1 H2.
  - destruct content; [|simpl in H1; lia]. by destruct fuel2.
  - destruct content as [|c s]; [by destruct fuel2|].
    destruct fuel2 as [|fuel2]; [simpl in H2; lia|].
    destruct (readLine_fileLines c s) as (line & rest & Hread & _ & _ & Hlen).
    cbn [Htpasswd.addUser_loop Qt.isEmpty]. rewrite Hread.
    destruct (negb wrote && Htpasswd.addMatches u (Htpasswd.textLine line));
      apply IH; simpl in *; lia.
Qed.

End HtpasswdFacts.

Section HtpasswdRoundTrip.

Implicit Types (s t u p b line rest content : list ascii).
Implicit Types (before after : list (list ascii)).

























(** [addUser] when no line matches, and when a line does. *)
Lemma addUser_new (fs : Htpasswd.FileSystem)
    (user : gmap (list ascii) (list (list ascii))) :
  Htpasswd.tmpOpens fs = true → Htpasswd.removeOk fs = true →
  Htpasswd.renameOk fs = true →
  (is_Some (Htpasswd.authFile fs) → Htpasswd.fileOpens fs = true) →
  Forall (fun l => Htpasswd.addMatches
                     (Htpasswd.paramValue user (qs "username")) l = false)
         (Htpasswd.fileLines (default [] (Htpasswd.authFile fs))) →
  Htpasswd.addUser fs user
  = {| Htpasswd.newAuthFile :=
         Some (Htpasswd.textContent (default [] (Htpasswd.authFile fs))
               ++ Htpasswd.entryLine
                    (Htpasswd.paramValue user (qs "username"))
                    (Htpasswd.paramValue user (qs "password")));
       Htpasswd.leftTmpFile := None;
       Htpasswd.warning := None |}.
Proof.
  intros Htmp Hrm Hmv Hopen Hno.
  unfold Htpasswd.addUser.
  rewrite Htmp, Hrm, Hmv. cbn [negb]. rewrite andb_false_r.
  destruct (Htpasswd.authFile fs) as [content|]; [|done].
  rewrite Hopen by (by eexists). simpl in Hno.
  rewrite addUser_loop_copy by (done || by right). done.
Qed.

Lemma addUser_replace (fs : Htpasswd.FileSystem)
    (user : gmap (list ascii) (list (list ascii))) content before after m :
  Htpasswd.tmpOpens fs = true → Htpasswd.removeOk fs = true →
  Htpasswd.renameOk fs = true → Htpasswd.fileOpens fs = true →
  Htpasswd.authFile fs = Some content →
  Htpasswd.fileLines content = before ++ m :: after →
  Forall (fun l => Htpasswd.addMatches
                     (Htpasswd.paramValue user (qs "username")) l = false)
         before →
  Htpasswd.addMatches (Htpasswd.paramValue user (qs "username")) m = true →
  Htpasswd.addUser fs user
  = {| Htpasswd.newAuthFile :=
         Some (concat (map Htpasswd.textLine before)
               ++ Htpasswd.entryLine
                    (Htpasswd.paramValue user (qs "username"))
                    (Htpasswd.replace Htpasswd.colon Htpasswd.comma
                       (Htpasswd.paramValue user (qs "password")))
               ++ concat (map Htpasswd.textLine after));
       Htpasswd.leftTmpFile := None;
       Htpasswd.warning := None |}.
Proof.
  intros Htmp Hrm Hmv Hopen Hfile Hlines Hl1 Hm.
  unfold Htpasswd.addUser.
  rewrite Htmp, Hrm, Hmv, Hfile, Hopen. cbn [negb]. rewrite andb_false_r.
  by rewrite (addUser_loop_replace _ _ _ _ _ before m after).
Qed.

(** Lines without carriage return are read as they are. *)
Lemma textLines_no_cr (ls : list (list ascii)) :
  Htpasswd.cr ∉ concat ls → map Htpasswd.textLine ls = ls.
Proof.
  intros Hcr. rewrite <- (map_id ls) at 2.
  apply map_ext_in. intros l Hl. apply textLine_no_cr.
  intros Hin. apply Hcr.
  apply list_elem_of_In, in_concat. exists l.
  split; [done|by apply list_elem_of_In].
Qed.

End HtpasswdRoundTrip.

(** X18.  When no line of the password file matches the user name,
    [addUser] keeps the lines of the file, as they are read in text mode (a
    line end [\r\n] is written back as [\n]), and appends the entry
    [username:password] with the password as it is given; without a file it
    creates one with that entry.  A file without carriage return keeps every
    byte.  (All file operations succeed.) *)
Theorem addUser_appends_new_entry (fs : Htpasswd.FileSystem)
    (user : gmap (list ascii) (list (list ascii))) :
  let username := Htpasswd.paramValue user (qs "username") in
  let password := Htpasswd.paramValue user (qs "password") in
  let old := default [] (Htpasswd.authFile fs) in
  Htpasswd.tmpOpens fs = true → Htpasswd.removeOk fs = true →
  Htpasswd.renameOk fs = true →
  (is_Some (Htpasswd.authFile fs) → Htpasswd.fileOpens fs = true) →
  Forall (fun l => Htpasswd.addMatches username l = false)
         (Htpasswd.fileLines old) →
  Htpasswd.addUser fs user
  = {| Htpasswd.newAuthFile :=
         Some (Htpasswd.textContent old
               ++ Htpasswd.entryLine username password);
       Htpasswd.leftTmpFile := None;
       Htpasswd.warning := None |}
  ∧ (Htpasswd.cr ∉ old →
     Htpasswd.newAuthFile (Htpasswd.addUser fs user)
     = Some (old ++ Htpasswd.entryLine username password)).
Proof.
  intros username password old Htmp Hrm Hmv Hopen Hno.
  rewrite addUser_new by done. fold username password old.
  split; [done|]. intros Hcr. cbn [Htpasswd.newAuthFile].
  by rewrite textContent_no_cr.
Qed.

Lemma addUser_appends_new_entry_witness :
  Htpasswd.addUser
    (Htpasswd.healthy
       (Some (qs "alice:secret" ++ [Htpasswd.cr; Htpasswd.newline])))
    (Htpasswd.credentials "carol" "n:ew")
  = {| Htpasswd.newAuthFile :=
         Some ((qs "alice:secret" ++ [Htpasswd.newline])
               ++ Htpasswd.entryLine (qs "carol") (qs "n:ew"));
       Htpasswd.leftTmpFile := None;
       Htpasswd.warning := None |}.
Proof.
  refine (proj1 (addUser_appends_new_entry
                   (Htpasswd.healthy
                      (Some (qs "alice:secret"
                             ++ [Htpasswd.cr; Htpasswd.newline])))
                   (Htpasswd.credentials "carol" "n:ew") _ _ _ _ _));
    try reflexivity.
  repeat constructor.
Defined.

(** X19.  When a line of the password file matches the user name,
    [addUser] replaces the first such line by the entry, in which every
    colon of the password has become a comma, and keeps all other lines, in
    their order, as they are read in text mode (a line end [\r\n] is written
    back as [\n]).  In a file without carriage return the other lines keep
    every byte.  (All file operations succeed.) *)
Theorem addUser_replaces_first_match (fs : Htpasswd.FileSystem)
    (user : gmap (list ascii) (list (list ascii)))
    (content : list ascii) (l1 l2 : list (list ascii)) (m : list ascii) :
  let username := Htpasswd.paramValue user (qs "username") in
  let password := Htpasswd.paramValue user (qs "password") in
  let entry := Htpasswd.entryLine username
                 (Htpasswd.replace Htpasswd.colon Htpasswd.comma password) in
  Htpasswd.tmpOpens fs = true → Htpasswd.removeOk fs = true →
  Htpasswd.renameOk fs = true → Htpasswd.fileOpens fs = true →
  Htpasswd.authFile fs = Some content →
  Htpasswd.fileLines content = l1 ++ m :: l2 →
  Forall (fun l => Htpasswd.addMatches username l = false) l1 →
  Htpasswd.addMatches username m = true →
  Htpasswd.addUser fs user
  = {| Htpasswd.newAuthFile :=
         Some (concat (map Htpasswd.textLine l1) ++ entry
               ++ concat (map Htpasswd.textLine l2));
       Htpasswd.leftTmpFile := None;
       Htpasswd.warning := None |}
  ∧ (Htpasswd.cr ∉ content →
     Htpasswd.newAuthFile (Htpasswd.addUser fs user)
     = Some (concat l1 ++ entry ++ concat l2)).
Proof.
  intros username password entry Htmp Hrm Hmv Hopen Hfile Hlines Hl1 Hm.
  rewrite (addUser_replace fs user content l1 l2 m) by done.
  fold username password entry.
  split; [done|]. intros Hcr. cbn [Htpasswd.newAuthFile].
  rewrite <- (concat_fileLines content), Hlines, concat_app in Hcr.
  cbn [concat] in Hcr.
  rewrite !textLines_no_cr; [done|..];
    intros Hin; apply Hcr; rewrite !elem_of_app; auto.
Qed.

Lemma addUser_replaces_first_match_witness :
  Htpasswd.addUser
    (Htpasswd.healthy
       (Some (qs "eve:x" ++ Htpasswd.cr :: Htpasswd.newline
              :: qs "bob:old" ++ Htpasswd.cr :: Htpasswd.newline
              :: qs "zed:y")))
    (Htpasswd.credentials "bob" "n:ew")
  = {| Htpasswd.newAuthFile :=
         Some (qs "eve:x" ++ Htpasswd.newline
               :: qs "bob:n,ew" ++ Htpasswd.newline :: qs "zed:y");
       Htpasswd.leftTmpFile := None;
       Htpasswd.warning := None |}.
Proof.
  refine (proj1 (addUser_replaces_first_match
                   (Htpasswd.healthy
                      (Some (qs "eve:x" ++ Htpasswd.cr :: Htpasswd.newline
                             :: qs "bob:old" ++ Htpasswd.cr :: Htpasswd.newline
                             :: qs "zed:y")))
                   (Htpasswd.credentials "bob" "n:ew")
                   (qs "eve:x" ++ Htpasswd.cr :: Htpasswd.newline
                    :: qs "bob:old" ++ Htpasswd.cr :: Htpasswd.newline
                    :: qs "zed:y")
                   [qs "eve:x" ++ [Htpasswd.cr; Htpasswd.newline]]
                   [qs "zed:y"]
                   (qs "bob:old" ++ [Htpasswd.cr; Htpasswd.newline])
                   _ _ _ _ _ _ _ _));
    try reflexivity.
  repeat constructor.
Defined.



(** X21.  When the password file exists and cannot be opened, [addUser]
    still goes on: the entries of the file are not copied, and the file is
    replaced by one that holds the new entry alone. *)
Theorem addUser_unreadable_file (fs : Htpasswd.FileSystem)
    (user : gmap (list ascii) (list (list ascii))) :
  Htpasswd.tmpOpens fs = true → Htpasswd.fileOpens fs = false →
  Htpasswd.removeOk fs = true → Htpasswd.renameOk fs = true →
  Htpasswd.newAuthFile (Htpasswd.addUser fs user)
  = Some (Htpasswd.entryLine (Htpasswd.paramValue user (qs "username"))
                             (Htpasswd.paramValue user (qs "password"))).
Proof.
  intros Htmp Hopen Hrm Hmv. unfold Htpasswd.addUser.
  rewrite Htmp, Hopen, Hrm, Hmv. cbn [negb]. rewrite andb_false_r.
  by destruct (Htpasswd.authFile fs).
Qed.

Lemma addUser_unreadable_file_witness :
  Htpasswd.newAuthFile
    (Htpasswd.addUser
       {| Htpasswd.authFile := Some (qs "alice:secret");
          Htpasswd.tmpOpens := true; Htpasswd.fileOpens := false;
          Htpasswd.removeOk := true; Htpasswd.renameOk := true |}
       (Htpasswd.credentials "bob" "pw"))
  = Some (Htpasswd.entryLine
            (Htpasswd.paramValue (Htpasswd.credentials "bob" "pw") (qs "username"))
            (Htpasswd.paramValue (Htpasswd.credentials "bob" "pw") (qs "password"))).
Proof.
  apply (addUser_unreadable_file
           {| Htpasswd.authFile := Some (qs "alice:secret");
              Htpasswd.tmpOpens := true; Htpasswd.fileOpens := false;
              Htpasswd.removeOk := true; Htpasswd.renameOk := true |}
           (Htpasswd.credentials "bob" "pw"));
    reflexivity.
Defined.

Lemma findUser_loop_result fuel (content u : list ascii) :
  Htpasswd.findUser_loop fuel content u = Htpasswd.nullUser
  ∨ ∃ line, Htpasswd.findMatches u line = true
            ∧ Htpasswd.findUser_loop fuel content u = Htpasswd.userOfLine u line.
Proof.
  revert content. induction fuel as [|fuel IH]; intros content; [by left|].
  simpl. destruct (Qt.isEmpty content); [by left|].
  destruct (Htpasswd.readLine content) as [line rest].
  destruct (Htpasswd.findMatches u line) eqn:Hm; [right; eauto|apply IH].
Qed.

Lemma findMatches_not_hash (u line : list ascii) :
  Htpasswd.findMatches u line = true →
  Qt.startsWith u Htpasswd.hash = false.
Proof.
  unfold Htpasswd.findMatches. intros [_ Hhead]%andb_prop.
  destruct (head _) as [first|]; [|done].
  apply andb_prop in Hhead as [Hhash ->%bool_decide_eq_true].
  by apply negb_true_iff.
Qed.

(** X22.  [findUser] returns the null user, or a user whose id and whose
    field [username] are the name that was asked for; the null user is what
    it returns when the file does not exist or cannot be opened, and for
    every name that begins with a hash sign. *)
Theorem findUser_result (fs : Htpasswd.FileSystem)
    (userInfo : gmap (list ascii) (list (list ascii))) :
  let username := Htpasswd.paramValue userInfo (qs "username") in
  (Htpasswd.findUser fs userInfo = Htpasswd.nullUser
   ∨ (Htpasswd.userId (Htpasswd.findUser fs userInfo) = Some username
      ∧ Htpasswd.userFields (Htpasswd.findUser fs userInfo) !! qs "username"
        = Some username))
  ∧ (Htpasswd.authFile fs = None ∨ Htpasswd.fileOpens fs = false
     ∨ Qt.startsWith username Htpasswd.hash = true →
     Htpasswd.findUser fs userInfo = Htpasswd.nullUser).
Proof.
  intros username. unfold Htpasswd.findUser. fold username.
  destruct (Htpasswd.authFile fs) as [content|]; [|by split; [left|]].
  destruct (Htpasswd.fileOpens fs); [|by split; [left|]].
  destruct (findUser_loop_result (length content) content username)
    as [->|(line & Hm & ->)]; [by split; [left|]|].
  split.
  - right. split; [done|]. unfold Htpasswd.userOfLine. cbn.
    rewrite lookup_insert_ne by done. apply lookup_insert_eq.
  - intros [?|[?|Hhash]]; [done..|].
    apply findMatches_not_hash in Hm. congruence.
Qed.

Lemma findUser_result_witness :
  Htpasswd.findUser (Htpasswd.healthy (Some (qs "#bob:pw")))
                    (Htpasswd.credentials "#bob" EmptyString)
  = Htpasswd.nullUser.
Proof.
  apply (proj2 (findUser_result (Htpasswd.healthy (Some (qs "#bob:pw")))
                  (Htpasswd.credentials "#bob" EmptyString))).
  right. right. reflexivity.
Defined.

(** X23.  A user that [findUser] found comes back from the session: for a
    user with an id, [fromSession] of [forSession] finds the same user
    again. *)
Theorem fromSession_forSession (fs : Htpasswd.FileSystem)
    (userInfo : gmap (list ascii) (list (list ascii))) :
  Htpasswd.userId (Htpasswd.findUser fs userInfo) ≠ None →
  Htpasswd.fromSession fs (Htpasswd.forSession (Htpasswd.findUser fs userInfo))
  = Htpasswd.findUser fs userInfo.
Proof.
  intros Hid.
  destruct (proj1 (findUser_result fs userInfo)) as [Hnull|[Huid _]];
    [by rewrite Hnull in Hid|].
  unfold Htpasswd.fromSession, Htpasswd.forSession. rewrite Huid.
  unfold Htpasswd.findUser, Htpasswd.paramValue at 1.
  by rewrite lookup_singleton_eq.
Qed.

Lemma fromSession_forSession_witness :
  Htpasswd.fromSession (Htpasswd.healthy (Some (qs "bob:pw")))
    (Htpasswd.forSession
       (Htpasswd.findUser (Htpasswd.healthy (Some (qs "bob:pw")))
                          (Htpasswd.credentials "bob" EmptyString)))
  = Htpasswd.findUser (Htpasswd.healthy (Some (qs "bob:pw")))
                      (Htpasswd.credentials "bob" EmptyString).
Proof.
  apply (fromSession_forSession (Htpasswd.healthy (Some (qs "bob:pw")))
           (Htpasswd.credentials "bob" EmptyString)).
  by vm_compute.
Defined.






(** * The response *)

Section ResponseFacts.

Context {Hdr : Type} `{Response.HeadersClass Hdr}.

Implicit Types (r : Response.ResponsePrivate Hdr).
Implicit Types (c : Response.QNetworkCookie).

Lemma cookie_insertMulti r c name :
  Response.cookie name
    (Response.with_cookies r (Response.insertMulti c (Response.cookies r)))
  = if bool_decide (Response.cookieName c = name) then c
    else Response.cookie name r.
Proof.
  unfold Response.cookie, Response.with_cookies, Response.insertMulti.
  cbn [Response.cookies]. case_bool_decide as Hname.
  - subst name. by rewrite lookup_insert_eq.
  - by rewrite lookup_insert_ne.
Qed.

Lemma cookieCount_insert (m : gmap (list ascii) (list Response.QNetworkCookie))
    (k : list ascii) (l : list Response.QNetworkCookie) :
  (map_fold (fun _ l n => (length l + n)%nat) 0%nat (<[k := l]> m)
   + length (default [] (m !! k))
   = map_fold (fun _ l n => (length l + n)%nat) 0%nat m + length l)%nat.
Proof.
  destruct (m !! k) as [old|] eqn:Hk; simpl.
  - rewrite <- (insert_delete_id m k old Hk) at 2.
    rewrite <- (insert_delete_eq m k l).
    rewrite !(map_fold_insert_L (fun _ l n => (length l + n)%nat));
      [lia|intros; lia|apply lookup_delete_eq|intros; lia|apply lookup_delete_eq].
  - rewrite (map_fold_insert_L (fun _ l n => (length l + n)%nat));
      [lia|intros; lia|done].
Qed.

End ResponseFacts.

(** X26.  [redirect] writes the page that says where the item has moved at
    most once: after a redirect to a valid URL, or on a response that has a
    body, a second redirect sets the status and the location and leaves the
    body and the headers as they are, so that the page still names the URL
    of the first redirect. *)
Theorem redirect_body_written_once {Hdr : Type} `{Response.HeadersClass Hdr}
    (r : Response.ResponsePrivate Hdr) (url1 url2 : Response.QUrl)
    (s1 s2 : Z) :
  let r1 := Response.redirect url1 s1 r in
  let r2 := Response.redirect url2 s2 r1 in
  Response.isValid url1 = true ∨ Response.hasBody r = true →
  Response.status r2 = s2 ∧ Response.location r2 = url2
  ∧ Response.body r2 = Response.body r1
  ∧ Response.headers r2 = Response.headers r1
  ∧ Response.cookies r2 = Response.cookies r
  ∧ (Response.isValid url1 = true → Response.hasBody r = false →
     Response.body r2
     = Some (Response.Bytes (Response.movedPage url1))).
Proof.
  intros r1 r2 Hfirst.
  assert (Response.hasBody r1 = true) as Hbody.
  { subst r1. unfold Response.redirect, Response.hasBody, Response.setStatus.
    cbn [Response.body Response.status Response.location Response.headers
         Response.cookies].
    destruct Hfirst as [->|Hr]; [by destruct (Response.body r)|].
    unfold Response.hasBody in Hr. destruct (Response.body r); [|done].
    by rewrite andb_false_r. }
  assert (r2 = Response.mkResponse s2 (Response.body r1) url2
                 (Response.headers r1) (Response.cookies r1)) as ->.
  { subst r2. unfold Response.redirect at 1. unfold Response.setStatus.
    unfold Response.hasBody in *.
    cbn [Response.body Response.status Response.location Response.headers
         Response.cookies].
    destruct (Response.body r1); [|done]. by rewrite andb_false_r. }
  cbn [Response.body Response.status Response.location Response.headers
       Response.cookies].
  repeat split.
  - subst r1. unfold Response.redirect, Response.setStatus.
    by destruct (_ && _).
  - intros Hvalid Hnone. subst r1.
    unfold Response.redirect, Response.setStatus, Response.hasBody in *.
    cbn [Response.body Response.status Response.location Response.headers
         Response.cookies] in *.
    rewrite Hvalid. by destruct (Response.body r).
Qed.

Lemma redirect_body_written_once_witness :
  Response.location
    (Response.redirect (Response.mkUrl true (qs "/second")) 303
       (Response.redirect (Response.mkUrl true (qs "/first")) 302
          Response.freshResponse))
  = Response.mkUrl true (qs "/second")
  ∧ Response.body
      (Response.redirect (Response.mkUrl true (qs "/second")) 303
         (Response.redirect (Response.mkUrl true (qs "/first")) 302
            Response.freshResponse))
    = Some (Response.Bytes
              (Response.movedPage (Response.mkUrl true (qs "/first")))).
Proof.
  pose proof (redirect_body_written_once Response.freshResponse
                (Response.mkUrl true (qs "/first"))
                (Response.mkUrl true (qs "/second")) 302 303
                (or_introl eq_refl))
    as (_ & Hlocation & _ & _ & _ & Hbody).
  split; [exact Hlocation|exact (Hbody eq_refl eq_refl)].
Defined.

(** X27.  After [setCookies], [cookie] returns for a name the last cookie
    of the list that has this name, and what it returned before when the
    list has none; the response holds as many more cookies as the list
    has. *)
Theorem setCookies_last_wins {Hdr : Type} `{Response.HeadersClass Hdr}
    (r : Response.ResponsePrivate Hdr) (cs : list Response.QNetworkCookie)
    (name : list ascii) :
  Response.cookie name (Response.setCookies cs r)
  = default (Response.cookie name r)
      (last (filter (fun c => Response.cookieName c = name) cs))
  ∧ Response.cookieCount (Response.setCookies cs r)
    = (Response.cookieCount r + length cs)%nat.
Proof.
  revert r. induction cs as [|c cs IH]; intros r.
  - simpl. split; [done|lia].
  - change (Response.setCookies (c :: cs) r)
      with (Response.setCookies cs
              (Response.with_cookies r
                 (Response.insertMulti c (Response.cookies r)))).
    destruct (IH (Response.with_cookies r
                    (Response.insertMulti c (Response.cookies r))))
      as [-> ->].
    split.
    + rewrite cookie_insertMulti, filter_cons.
      case_bool_decide as Hname.
      * rewrite decide_True by done.
        destruct (filter _ cs) as [|x l] eqn:Hf; [done|].
        change (last (c :: x :: l)) with (last (x :: l)).
        destruct (last (x :: l)) eqn:Hl; [done|by apply last_None in Hl].
      * by rewrite decide_False.
    + unfold Response.cookieCount, Response.with_cookies,
        Response.insertMulti.
      cbn [Response.cookies length].
      pose proof (cookieCount_insert (Response.cookies r)
                    (Response.cookieName c)
                    (c :: default [] (Response.cookies r
                                        !! Response.cookieName c))) as Hn.
      cbn [length] in Hn. lia.
Qed.

(** X28.  [setCookie] replaces the most recent cookie of the name: the
    cookie is then the one [cookie] returns for its name, setting it a
    second time changes nothing, and the response holds one cookie more
    only when it held none of that name. *)
Theorem setCookie_replaces_most_recent {Hdr : Type}
    `{Response.HeadersClass Hdr}
    (r : Response.ResponsePrivate Hdr) (c : Response.QNetworkCookie) :
  Response.cookie (Response.cookieName c) (Response.setCookie c r) = c
  ∧ Response.setCookie c (Response.setCookie c r) = Response.setCookie c r
  ∧ Response.cookieCount (Response.setCookie c r)
    = (Response.cookieCount r
       + if bool_decide (default [] (Response.cookies r
                                       !! Response.cookieName c) = [])
         then 1 else 0)%nat.
Proof.
  unfold Response.setCookie, Response.cookie, Response.with_cookies,
    Response.insertOne, Response.cookieCount.
  cbn [Response.cookies Response.status Response.body Response.location
       Response.headers].
  rewrite lookup_insert_eq. repeat split.
  - f_equal. cbn [default tail]. apply insert_insert_eq.
  - pose proof (cookieCount_insert (Response.cookies r)
                  (Response.cookieName c)
                  (c :: tail (default [] (Response.cookies r
                                           !! Response.cookieName c))))
      as Hn.
    destruct (default [] (Response.cookies r !! Response.cookieName c))
      as [|x l]; cbn [length tail] in *.
    + rewrite bool_decide_true by done. lia.
    + rewrite bool_decide_false by done. lia.
Qed.
